(** * re-call: a single-slot invocation cache

    A shallow embedding of [src/index.ts] and [src/utils.ts].

    JavaScript values are modelled with reference identity: arrays and
    plain objects live in a heap and are denoted by their address, so that
    [Object.is], [===] and the allocation of a fresh array literal keep the
    meaning they have in the source.  The cache is the module-level
    [WeakMap] keyed by function identity. *)

From stdpp Require Import base option list gmap strings pretty.
From Stdlib Require Import ZArith Lia Ascii.

Open Scope string_scope.
Open Scope list_scope.
Open Scope nat_scope.

(** ** Values *)

(** Numbers: the finite values are kept exact; [NaN] and the negative zero
    are the two values on which [===] and [Object.is] disagree. *)
Inductive number :=
  | NaN
  | NegZero
  | Fin (z : Z).

(** Function identities.  [Object.is], [shallowEqual] and the imported
    [deepEqual] are function values like any other; [UserFn n] is the n-th
    function of the client program. *)
Inductive fn :=
  | Object_is
  | FnShallowEqual
  | FnDeepEqual
  | UserFn (n : nat).

Abbreviation addr := nat.

Inductive value :=
  | VUndefined
  | VNull
  | VBool (b : bool)
  | VNum (n : number)
  | VStr (s : string)
  | VObj (a : addr)
  | VFun (f : fn).

Global Instance number_eq_dec : EqDecision number.
Proof. solve_decision. Defined.
Global Instance fn_eq_dec : EqDecision fn.
Proof. solve_decision. Defined.
Global Instance value_eq_dec : EqDecision value.
Proof. solve_decision. Defined.

Definition fn_code (f : fn) : nat :=
  match f with
  | Object_is => 0
  | FnShallowEqual => 1
  | FnDeepEqual => 2
  | UserFn n => 3 + n
  end.

Definition fn_of_code (c : nat) : fn :=
  match c with
  | 0 => Object_is
  | 1 => FnShallowEqual
  | 2 => FnDeepEqual
  | S (S (S n)) => UserFn n
  end.

Global Program Instance fn_countable : Countable fn :=
  inj_countable' fn_code fn_of_code _.
Next Obligation. by intros []. Qed.

(** Heap objects: an array whose every index below its length holds an
    element is the list of its elements; an array with holes is the list
    of its slots, [None] where the array has no element (as in [[ , 1]], or
    after [delete a[0]]); a plain object is a finite map from property
    names to values. *)
Inductive object :=
  | OArray (elems : list value)
  | OHoley (slots : list (option value))
  | ORecord (props : gmap string value).

Abbreviation heap := (list object).

Definition alloc (o : object) (h : heap) : addr * heap :=
  (length h, h ++ [o]).

(** The global object sits at address 0 of every heap. *)
Definition globalThis : value := VObj 0.

(** What a call can result in: a value, or a thrown exception. *)
Inductive exn :=
  | TypeError (msg : string)
  | Thrown (v : value).

Inductive completion (A : Type) :=
  | Normal (a : A)
  | Throw (e : exn).
Arguments Normal {A} a.
Arguments Throw {A} e.

(** ** Primitive operators *)

(** [a === b] *)
Definition number_strict_equals (a b : number) : bool :=
  match a, b with
  | NaN, _ | _, NaN => false
  | NegZero, NegZero => true
  | NegZero, Fin z | Fin z, NegZero => bool_decide (z = 0%Z)
  | Fin x, Fin y => bool_decide (x = y)
  end.

Definition strict_equals (a b : value) : bool :=
  match a, b with
  | VUndefined, VUndefined => true
  | VNull, VNull => true
  | VBool x, VBool y => bool_decide (x = y)
  | VNum x, VNum y => number_strict_equals x y
  | VStr x, VStr y => bool_decide (x = y)
  | VObj x, VObj y => bool_decide (x = y)
  | VFun x, VFun y => bool_decide (x = y)
  | _, _ => false
  end.

(** [Object.is(a, b)]: the same value, [NaN] included, the zeros apart. *)
Definition same_value (a b : value) : bool := bool_decide (a = b).

(** Truthiness, as [||] and [&&] test it. *)
Definition to_boolean (v : value) : bool :=
  match v with
  | VUndefined | VNull => false
  | VBool b => b
  | VNum NaN | VNum NegZero => false
  | VNum (Fin z) => negb (bool_decide (z = 0%Z))
  | VStr s => negb (bool_decide (s = EmptyString))
  | VObj _ | VFun _ => true
  end.

(** [a || b] *)
Definition js_or (a b : value) : value := if to_boolean a then a else b.

(** [typeof v] *)
Definition typeof (v : value) : string :=
  match v with
  | VUndefined => "undefined"
  | VNull => "object"
  | VBool _ => "boolean"
  | VNum _ => "number"
  | VStr _ => "string"
  | VObj _ => "object"
  | VFun _ => "function"
  end.

Definition is_nullish (v : value) : bool :=
  match v with
  | VUndefined | VNull => true
  | _ => false
  end.

(** ** Own properties of heap objects *)

(** An address that the heap does not hold reads as an empty object; no
    such address exists in a heap built by [alloc]. *)
Definition deref (h : heap) (a : addr) : object :=
  default (ORecord ∅) (h !! a).

(** The index an array key stands for: the [i] below [n] whose decimal
    spelling is [k]. *)
Definition array_index (k : string) (n : nat) : option nat :=
  snd <$> list_find (λ i, pretty i = k) (seq 0 n).

(** The element an array with holes has at index [i], if any, and the
    indices at which it has one. *)
Definition slot (slots : list (option value)) (i : nat) : option value :=
  mjoin (slots !! i).

Definition present_indices (slots : list (option value)) : list nat :=
  filter (λ i, is_Some (slot slots i)) (seq 0 (length slots)).

(** [Object.keys(o)] *)
Definition own_keys (o : object) : list string :=
  match o with
  | OArray els => pretty <$> seq 0 (length els)
  | OHoley slots => pretty <$> present_indices slots
  | ORecord ps => (map_to_list ps).*1
  end.

(** [Object.prototype.hasOwnProperty.call(o, k)] *)
Definition has_own_property (o : object) (k : string) : bool :=
  match o with
  | OArray els =>
      bool_decide (k = "length") || bool_decide (is_Some (array_index k (length els)))
  | OHoley slots =>
      bool_decide (k = "length")
      || bool_decide (is_Some (array_index k (length slots) ≫= slot slots))
  | ORecord ps => bool_decide (is_Some (ps !! k))
  end.

(** [o[k]], for an own property [k]; [undefined] when there is none. *)
Definition get_own (o : object) (k : string) : value :=
  match o with
  | OArray els =>
      if bool_decide (k = "length") then VNum (Fin (Z.of_nat (length els)))
      else match array_index k (length els) with
           | Some i => default VUndefined (els !! i)
           | None => VUndefined
           end
  | OHoley slots =>
      if bool_decide (k = "length") then VNum (Fin (Z.of_nat (length slots)))
      else default VUndefined (array_index k (length slots) ≫= slot slots)
  | ORecord ps => default VUndefined (ps !! k)
  end.

(** The own enumerable properties that an object spread [{...v}] copies. *)
Definition string_chars (s : string) : list value :=
  (λ c, VStr (String c EmptyString)) <$> String.list_ascii_of_string s.

Definition indexed_props (els : list value) : gmap string value :=
  list_to_map (imap (λ i v, (pretty i, v)) els).

Definition holey_props (slots : list (option value)) : gmap string value :=
  list_to_map
    (omap (λ i, (λ v, (pretty i, v)) <$> slot slots i) (seq 0 (length slots))).

Definition spread_props (h : heap) (v : value) : gmap string value :=
  match v with
  | VObj a =>
      match deref h a with
      | OArray els => indexed_props els
      | OHoley slots => holey_props slots
      | ORecord ps => ps
      end
  | VStr s => indexed_props (string_chars s)
  | _ => ∅
  end.

(** ** src/utils.ts *)

Definition shallowEqual (h : heap) (prev next : value) : bool :=
  if strict_equals prev next then true
  else if negb (bool_decide (typeof prev = "object"))
          || negb (bool_decide (typeof next = "object"))
          || strict_equals prev VNull || strict_equals next VNull
  then false
  else
    match prev, next with
    | VObj p, VObj n =>
        let prevKeys := own_keys (deref h p) in
        let nextKeys := own_keys (deref h n) in
        if negb (bool_decide (length prevKeys = length nextKeys)) then false
        else
          forallb (λ key,
                     negb (negb (has_own_property (deref h n) key)
                           || negb (strict_equals (get_own (deref h p) key)
                                                  (get_own (deref h n) key))))
                  prevKeys
    | _, _ => false
    end.

(** ** The cache *)

(** The value of the [WeakMap]: [{ result, params, thisArg }]. *)
Record cache_record := CacheRecord {
  result : value;
  params : value;
  thisArg : value;
}.

Global Instance cache_record_eq_dec : EqDecision cache_record.
Proof. solve_decision. Defined.

(** The state a call runs in: the heap, the module-level [cache], and the
    log of the applications [fn.apply(thisValue, params)] the engine has
    performed (the log is what "invoked" is measured with). *)
Record state := State {
  mem : heap;
  cache : gmap fn cache_record;
  calls : list (fn * value * value);
}.

Definition set_mem (s : state) (h : heap) : state :=
  {| mem := h; cache := cache s; calls := calls s |}.

(** How many applications of [f] a log holds. *)
Definition invocations (f : fn) (log : list (fn * value * value)) : nat :=
  length (filter (λ c, c.1.1 = f) log).

(** [const defaultOptions = { this: undefined, thisArg: undefined,
    comparator: Object.is }] *)
Definition defaultOptions : gmap string value :=
  <["this" := VUndefined]>
    (<["thisArg" := VUndefined]>
       (<["comparator" := VFun Object_is]> ∅)).

(** [{ ...defaultOptions, ...options }] *)
Definition merge_options (h : heap) (options : value) : gmap string value :=
  spread_props h options ∪ defaultOptions.

Definition field (m : gmap string value) (k : string) : value :=
  default VUndefined (m !! k).

(** [thisContext || thisArg || globalThis] *)
Definition resolve_this (h : heap) (options : value) : value :=
  let m := merge_options h options in
  js_or (js_or (field m "this") (field m "thisArg")) globalThis.

Definition resolve_comparator (h : heap) (options : value) : value :=
  field (merge_options h options) "comparator".

(** [paramsOrOptions ?? {}]: the default is allocated only when needed. *)
Definition nullish_default (v : value) (o : object) (h : heap) : value * heap :=
  if is_nullish v then let '(a, h') := alloc o h in (VObj a, h') else (v, h).

Definition nth_arg (rest : list value) (i : nat) : value :=
  default VUndefined (rest !! i).

Section ReCall.

(** The client program: the declared parameter count [fn.length] of each
    function, what [fn.apply(thisValue, params)] returns and does to the
    heap, and what the functions other than [Object.is] and
    [shallowEqual] answer when called as a comparator (among them
    [deepEqual], imported from the package fast-deep-equal).

    [fn_apply] stands for the whole expression [fn.apply(thisValue,
    params)]: the exception it may end in is the one the callable throws,
    or the [TypeError] of [apply] itself when [params] is a primitive that
    cannot be spread into arguments.  A callable acts on the heap and is
    not handed the cache: it does not call back into the library while it
    runs.  A comparator reads the heap
    and answers a boolean, as its type [(prev, next) => boolean] says, or
    throws. *)
Variable fn_length : fn → nat.
Variable fn_apply : fn → value → value → heap → completion value * heap.
Variable fn_compare : fn → heap → value → value → completion bool.

(** [comparator(prev, next)] *)
Definition call_comparator (h : heap) (c prev next : value) : completion bool :=
  match c with
  | VFun Object_is => Normal (same_value prev next)
  | VFun FnShallowEqual => Normal (shallowEqual h prev next)
  | VFun f => fn_compare f h prev next
  | _ => Throw (TypeError "comparator is not a function")
  end.

(** Lines 28-30 of [_reCall]: the miss path. *)
Definition invoke (f : fn) (thisValue ps : value) (s : state)
  : completion value * state :=
  let '(r, h') := fn_apply f thisValue ps (mem s) in
  let log := calls s ++ [(f, thisValue, ps)] in
  match r with
  | Normal res =>
      (Normal res,
       {| mem := h';
          cache := <[f := CacheRecord res ps thisValue]> (cache s);
          calls := log |})
  | Throw e => (Throw e, {| mem := h'; cache := cache s; calls := log |})
  end.

Definition _reCall (f : fn) (ps options : value) (s : state)
  : completion value * state :=
  let comparator := resolve_comparator (mem s) options in
  let thisValue := resolve_this (mem s) options in
  match cache s !! f with
  | Some cacheData =>
      match call_comparator (mem s) comparator (params cacheData) ps with
      | Throw e => (Throw e, s)
      | Normal true =>
          if strict_equals (thisArg cacheData) thisValue
          then (Normal (result cacheData), s)
          else invoke f thisValue ps s
      | Normal false => invoke f thisValue ps s
      end
  | None => invoke f thisValue ps s
  end.

(** [parseRestParams(fn, rest)]: the pair [{ params, options }], and the
    heap after the literals [[]] and [{}] it had to allocate. *)
Definition parseRestParams (f : fn) (rest : list value) (h : heap)
  : value * value * heap :=
  let paramsOrOptions := nth_arg rest 0 in
  let maybeOptions := nth_arg rest 1 in
  if bool_decide (fn_length f = 0) then
    let '(a, h1) := alloc (OArray []) h in
    let '(options, h2) := nullish_default paramsOrOptions (ORecord ∅) h1 in
    (VObj a, options, h2)
  else
    let '(ps, h1) := nullish_default paramsOrOptions (OArray []) h in
    let '(options, h2) := nullish_default maybeOptions (ORecord ∅) h1 in
    (ps, options, h2).

(** [{ ...options, comparator: c }] *)
Definition with_comparator (c : fn) (options : value) (h : heap) : value * heap :=
  let '(a, h') := alloc (ORecord (<["comparator" := VFun c]> (spread_props h options))) h in
  (VObj a, h').

Definition byRef (f : fn) (rest : list value) (s : state)
  : completion value * state :=
  let '(ps, options, h) := parseRestParams f rest (mem s) in
  _reCall f ps options (set_mem s h).

Definition shallow (f : fn) (rest : list value) (s : state)
  : completion value * state :=
  let '(ps, options, h) := parseRestParams f rest (mem s) in
  let '(options', h') := with_comparator FnShallowEqual options h in
  _reCall f ps options' (set_mem s h').

Definition deep (f : fn) (rest : list value) (s : state)
  : completion value * state :=
  let '(ps, options, h) := parseRestParams f rest (mem s) in
  let '(options', h') := with_comparator FnDeepEqual options h in
  _reCall f ps options' (set_mem s h').

(** The wrappers: [(...params) => _reCall(fn, params, ...)].  Each call
    of the returned function collects its arguments into a new array. *)
Definition wrap (f : fn) (options : value) (args : list value) (s : state)
  : completion value * state :=
  let '(a, h1) := alloc (OArray args) (mem s) in
  let '(options', h2) := nullish_default options (ORecord ∅) h1 in
  _reCall f (VObj a) options' (set_mem s h2).

Definition wrapShallow (f : fn) (args : list value) (s : state)
  : completion value * state :=
  let '(a, h1) := alloc (OArray args) (mem s) in
  let '(o, h2) := alloc (ORecord (<["comparator" := VFun FnShallowEqual]> ∅)) h1 in
  _reCall f (VObj a) (VObj o) (set_mem s h2).

Definition wrapDeep (f : fn) (args : list value) (s : state)
  : completion value * state :=
  let '(a, h1) := alloc (OArray args) (mem s) in
  let '(o, h2) := alloc (ORecord (<["comparator" := VFun FnDeepEqual]> ∅)) h1 in
  _reCall f (VObj a) (VObj o) (set_mem s h2).

(** The condition of line 24, on the state the call starts in. *)
Definition hit_condition (f : fn) (ps options : value) (s : state) : Prop :=
  ∃ cacheData,
    cache s !! f = Some cacheData
    ∧ call_comparator (mem s) (resolve_comparator (mem s) options)
        (params cacheData) ps = Normal true
    ∧ thisArg cacheData = resolve_this (mem s) options.

(** What a caller observes of a hit: the call returns a value and the
    callable has not been applied. *)
Definition is_hit (s : state) (out : completion value * state) : Prop :=
  ∃ v, out.1 = Normal v ∧ calls out.2 = calls s.

(** Where the exception [e] that leaves the call [_reCall(f, ps, options)]
    made in the state [s] comes from: it is the one thrown by
    [fn.apply(thisValue, params)] of that call, or the one thrown by the
    call [comparator(cacheData.params, params)] of that call. *)
Definition raised_in_call (f : fn) (ps options : value) (s : state) (e : exn) : Prop :=
  (∃ h', fn_apply f (resolve_this (mem s) options) ps (mem s) = (Throw e, h'))
  ∨ (∃ cacheData,
       cache s !! f = Some cacheData
       ∧ call_comparator (mem s) (resolve_comparator (mem s) options)
           (params cacheData) ps = Throw e).

(** The successive calls of the function [wrap(fn)] returns. *)
Definition wrap_calls (f : fn) (argss : list (list value)) (s : state) : state :=
  foldl (λ st args, (wrap f VUndefined args st).2) s argss.

End ReCall.

(** The cache utilities. *)
Definition clearOne (f : fn) (s : state) : state :=
  {| mem := mem s; cache := delete f (cache s); calls := calls s |}.

Definition peek (f : fn) (s : state) : value :=
  match cache s !! f with
  | Some cacheData => result cacheData
  | None => VUndefined
  end.

Definition hasCache (f : fn) (s : state) : bool :=
  bool_decide (is_Some (cache s !! f)).

Definition clearAll (s : state) : state :=
  {| mem := mem s; cache := ∅; calls := calls s |}.

(** ** Well-formed states and other predicates *)

Definition value_ok (h : heap) (v : value) : Prop :=
  match v with
  | VObj a => a < length h
  | _ => True
  end.

Definition cache_wf (s : state) : Prop :=
  ∀ g cacheData, cache s !! g = Some cacheData → value_ok (mem s) (params cacheData).

Definition heap_monotone
    (fn_apply : fn → value → value → heap → completion value * heap) : Prop :=
  ∀ g t p h, length h ≤ length (fn_apply g t p h).2.

Definition omits_comparator (h : heap) (options : value) : Prop :=
  value_ok h options ∧ spread_props h options !! "comparator" = None.

(** A name that starts with a letter is no array index. *)
Definition starts_with_letter (k : string) : Prop :=
  match k with
  | String c _ => ∀ d, pretty_N_char d ≠ c
  | EmptyString => True
  end.

(** An option the caller's object supplies with a truthy value. *)
Definition truthy_supplied (h : heap) (options : value) (k : string) (v : value) : Prop :=
  spread_props h options !! k = Some v ∧ to_boolean v = true.

(** [typeof v === 'object' && v !== null] *)
Definition is_composite (v : value) : bool :=
  bool_decide (typeof v = "object") && negb (strict_equals v VNull).

(** What C3 says of a call that returned [r]. *)
Definition record_is_of_call (f : fn) (ps options : value) (s : state)
    (r : value) (s' : state) : Prop :=
  cache s' !! f = Some (CacheRecord r ps (resolve_this (mem s) options)).

(** ** A sample client *)

Definition num (z : Z) : value := VNum (Fin z).

(** [UserFn 0] takes no parameter; [UserFn 2] always throws; the others
    return their first argument. *)
Definition demo_length (f : fn) : nat :=
  match f with
  | UserFn 0 => 0
  | _ => 2
  end.

Definition demo_apply (f : fn) (thisValue ps : value) (h : heap)
  : completion value * heap :=
  match f with
  | UserFn 0 => (Normal (VStr "data"), h)
  | UserFn 2 => (Throw (Thrown (VStr "boom")), h)
  | _ => (Normal (match ps with
                  | VObj a => get_own (deref h a) "0"
                  | _ => VUndefined
                  end), h)
  end.

(** [UserFn 7], called as a comparator, accepts everything. *)
Definition demo_compare (f : fn) (h : heap) (prev next : value) : completion bool :=
  match f with
  | UserFn 7 => Normal true
  | _ => Normal false
  end.

(** The state of a program that has not called the library yet. *)
Definition initial : state := {| mem := [ORecord ∅]; cache := ∅; calls := [] |}.

(** The caller evaluating an array or object literal. *)
Definition literal (o : object) (s : state) : value * state :=
  let '(a, h) := alloc o (mem s) in (VObj a, set_mem s h).

(** [shallow(f, [1, 2]); shallow(f, [1, 2])] *)
Definition shallow_flat_twice : state :=
  let '(a1, s1) := literal (OArray [num 1; num 2]) initial in
  let '(_, s2) := shallow demo_length demo_apply demo_compare (UserFn 1) [a1] s1 in
  let '(a2, s3) := literal (OArray [num 1; num 2]) s2 in
  (shallow demo_length demo_apply demo_compare (UserFn 1) [a2] s3).2.

(** [shallow(f, [1, [1, 2]]); shallow(f, [1, [1, 2]])] *)
Definition shallow_nested_twice : state :=
  let '(i1, s1) := literal (OArray [num 1; num 2]) initial in
  let '(a1, s2) := literal (OArray [num 1; i1]) s1 in
  let '(_, s3) := shallow demo_length demo_apply demo_compare (UserFn 1) [a1] s2 in
  let '(i2, s4) := literal (OArray [num 1; num 2]) s3 in
  let '(a2, s5) := literal (OArray [num 1; i2]) s4 in
  (shallow demo_length demo_apply demo_compare (UserFn 1) [a2] s5).2.

(** [e(f, [1, 2], o); e(f, [3, 4], o)] with [o = { comparator: UserFn 7 }],
    a comparator that accepts everything, for [e] one of the entry points. *)
Definition custom_twice
    (entry : fn → list value → state → completion value * state) : state :=
  let '(o, s1) := literal (ORecord (<["comparator" := VFun (UserFn 7)]> ∅)) initial in
  let '(a1, s2) := literal (OArray [num 1; num 2]) s1 in
  let '(_, s3) := entry (UserFn 1) [a1; o] s2 in
  let '(a2, s4) := literal (OArray [num 3; num 4]) s3 in
  (entry (UserFn 1) [a2; o] s4).2.

Definition shallow_custom_twice : state :=
  custom_twice (shallow demo_length demo_apply demo_compare).

Definition byRef_custom_twice : state :=
  custom_twice (byRef demo_length demo_apply demo_compare).

(** [e(f); e(f)] for a function [f] that takes no parameter. *)
Definition noarg_twice
    (entry : fn → list value → state → completion value * state) : state :=
  let '(_, s1) := entry (UserFn 0) [] initial in
  (entry (UserFn 0) [] s1).2.

Definition byRef_noarg_twice : state :=
  noarg_twice (byRef demo_length demo_apply demo_compare).

Definition shallow_noarg_twice : state :=
  noarg_twice (shallow demo_length demo_apply demo_compare).

(** Two equal arrays at different addresses, and options that select
    [shallowEqual]. *)
Definition two_arrays : state :=
  {| mem := [ORecord ∅;
             OArray [num 1; num 2];
             ORecord (<["comparator" := VFun FnShallowEqual]> ∅);
             OArray [num 1; num 2]];
     cache := ∅;
     calls := [] |}.

(** [two_arrays] after the call [_reCall(f, a1, options)]. *)
Definition after_first_call : state :=
  (_reCall demo_apply demo_compare (UserFn 1) (VObj 1) (VObj 2) two_arrays).2.

(** Options [{ this: 0, thisArg: o }]. *)
Definition falsy_this : heap :=
  [ORecord ∅;
   ORecord (<["this" := num 0]> (<["thisArg" := VObj 2]> ∅));
   ORecord ∅].

(** Options [{ this: o }]. *)
Definition truthy_this : heap :=
  [ORecord ∅; ORecord (<["this" := VObj 2]> ∅); ORecord ∅].

(** ** Further predicates and sample data *)

(** [Array.isArray(o)] *)
Definition is_array (o : object) : bool :=
  match o with
  | OArray _ | OHoley _ => true
  | ORecord _ => false
  end.

(** The slots of an array, with or without holes. *)
Definition array_slots (o : object) : option (list (option value)) :=
  match o with
  | OArray els => Some (Some <$> els)
  | OHoley slots => Some slots
  | ORecord _ => None
  end.

(** Lines 6 to 14 of [shallowEqual], on the two objects the arguments
    refer to. *)
Definition objects_match (prev next : object) : bool :=
  let prevKeys := own_keys prev in
  let nextKeys := own_keys next in
  if negb (bool_decide (length prevKeys = length nextKeys)) then false
  else
    forallb (λ key,
               negb (negb (has_own_property next key)
                     || negb (strict_equals (get_own prev key) (get_own next key))))
            prevKeys.

(** The arrays [[ , 1]], [[undefined, 1]], [[ , ]] (one hole) and [[]]. *)
Definition holey_arrays : heap :=
  [ORecord ∅;
   OHoley [None; Some (num 1)];
   OArray [VUndefined; num 1];
   OHoley [None];
   OArray []].

(** Two plain objects [{ a: 1, b: null }] at different addresses, the
    object [{ length: 1 }] and the array [[1]]. *)
Definition sample_objects : heap :=
  [ORecord ∅;
   ORecord (<["a" := num 1]> (<["b" := VNull]> ∅));
   ORecord (<["a" := num 1]> (<["b" := VNull]> ∅));
   ORecord (<["length" := num 1]> ∅);
   OArray [num 1];
   OArray [VNum NaN];
   OArray [VNum NaN]].

(** The heap of [after_first_call] once the caller has overwritten the
    elements of the first array. *)
Definition mutated_heap : heap :=
  <[1 := OArray [num 9; num 9]]> (mem after_first_call).

(** [after_first_call] with one more object, the options
    [{ comparator: undefined }]. *)
Definition undefined_comparator : state :=
  set_mem after_first_call
    (mem after_first_call ++ [ORecord (<["comparator" := VUndefined]> ∅)]).

(** [shallow(f)] called once for the function without parameter. *)
Definition after_shallow_noarg : state :=
  (shallow demo_length demo_apply demo_compare (UserFn 0) [] initial).2.

(** [two_arrays] with one more object, the options [{ this: a1 }], and
    the state after a call for [f] made there without options. *)
Definition with_context_options : state :=
  set_mem two_arrays (mem two_arrays ++ [ORecord (<["this" := VObj 1]> ∅)]).

Definition after_plain_call : state :=
  (_reCall demo_apply demo_compare (UserFn 1) (VObj 1) VUndefined
     with_context_options).2.

Section EntryPoints.

Variable fn_length : fn → nat.
Variable fn_apply : fn → value → value → heap → completion value * heap.
Variable fn_compare : fn → heap → value → value → completion bool.

(** The outcomes of the six ways of calling the engine for [f] from the
    state [s]: [byRef], [shallow] and [deep] on the extra arguments [rest],
    and the functions made by [wrap(f, options)], [wrapShallow(f)] and
    [wrapDeep(f)] on the arguments [args]. *)
Definition all_entries (f : fn) (rest : list value) (options : value)
    (args : list value) (s : state) : list (completion value * state) :=
  [byRef fn_length fn_apply fn_compare f rest s;
   shallow fn_length fn_apply fn_compare f rest s;
   deep fn_length fn_apply fn_compare f rest s;
   wrap fn_apply fn_compare f options args s;
   wrapShallow fn_apply fn_compare f args s;
   wrapDeep fn_apply fn_compare f args s].

End EntryPoints.

(** * Properties *)

(** ** Values and operators *)

Lemma strict_equals_truthy (a b : value) :
  to_boolean b = true → strict_equals a b = true ↔ a = b.
Proof.
  intros Hb. split.
  - destruct a as [| |x|x|x|x|x], b as [| |y|y|y|y|y]; simpl in *; try done;
      try (intros ->%bool_decide_eq_true; done).
    destruct x as [| |x], y as [| |y]; simpl in *; try done.
    + intros ->%bool_decide_eq_true. by rewrite bool_decide_eq_true_2 in Hb.
    + intros ->%bool_decide_eq_true. done.
  - intros ->.
    destruct b as [| |y|y|y|y|y]; simpl in *; try done;
      try (by apply bool_decide_eq_true_2).
    destruct y; simpl in *; try done. by apply bool_decide_eq_true_2.
Qed.

Lemma js_or_truthy (a b : value) :
  to_boolean b = true → to_boolean (js_or a b) = true.
Proof. intros Hb. unfold js_or. by destruct (to_boolean a) eqn:Ha. Qed.

Lemma resolve_this_truthy (h : heap) (options : value) :
  to_boolean (resolve_this h options) = true.
Proof. unfold resolve_this. by apply js_or_truthy. Qed.

Lemma invocations_app (f : fn) (l1 l2 : list (fn * value * value)) :
  invocations f (l1 ++ l2) = invocations f l1 + invocations f l2.
Proof. unfold invocations. by rewrite filter_app, length_app. Qed.

Lemma invocations_snoc (f : fn) (l : list (fn * value * value)) (t p : value) :
  invocations f (l ++ [(f, t, p)]) = S (invocations f l).
Proof.
  rewrite invocations_app. unfold invocations at 2.
  rewrite filter_cons_True by done. simpl. lia.
Qed.

Lemma snoc_neq {A} (l : list A) (x : A) : l ++ [x] ≠ l.
Proof.
  intros H. apply (f_equal length) in H. rewrite length_app in H. simpl in H. lia.
Qed.

(** ** Heap facts *)

Lemma deref_app_l (h ext : heap) (a : addr) :
  a < length h → deref (h ++ ext) a = deref h a.
Proof. intros Ha. unfold deref. by rewrite lookup_app_l. Qed.

Lemma deref_alloc (h : heap) (o : object) : deref (h ++ [o]) (length h) = o.
Proof. unfold deref. by rewrite list_lookup_middle. Qed.

Lemma deref_lookup (h : heap) (a : addr) (o : object) :
  h !! a = Some o → deref h a = o.
Proof. intros H. unfold deref. by rewrite H. Qed.

Lemma value_ok_app (h ext : heap) (v : value) :
  value_ok h v → value_ok (h ++ ext) v.
Proof. destruct v; simpl; try done. rewrite length_app. lia. Qed.

Lemma value_ok_le (h h' : heap) (v : value) :
  length h ≤ length h' → value_ok h v → value_ok h' v.
Proof. destruct v; simpl; try done. lia. Qed.

Lemma spread_props_app (h ext : heap) (v : value) :
  value_ok h v → spread_props (h ++ ext) v = spread_props h v.
Proof.
  destruct v; simpl; try done. intros Ha. by rewrite deref_app_l.
Qed.

Lemma defaultOptions_comparator : defaultOptions !! "comparator" = Some (VFun Object_is).
Proof. done. Qed.

Lemma defaultOptions_this : defaultOptions !! "this" = Some VUndefined.
Proof. done. Qed.

Lemma defaultOptions_thisArg : defaultOptions !! "thisArg" = Some VUndefined.
Proof. done. Qed.

Lemma field_merge_options (h : heap) (options : value) (k : string) :
  field (merge_options h options) k
  = match spread_props h options !! k with
    | Some v => v
    | None => field defaultOptions k
    end.
Proof.
  unfold field, merge_options.
  destruct (spread_props h options !! k) as [v|] eqn:E.
  - by rewrite (lookup_union_Some_l _ _ _ _ E).
  - by rewrite lookup_union_r.
Qed.

Lemma resolve_comparator_default (h : heap) (options : value) :
  spread_props h options !! "comparator" = None →
  resolve_comparator h options = VFun Object_is.
Proof.
  intros H. unfold resolve_comparator. by rewrite field_merge_options, H.
Qed.

Lemma resolve_comparator_own (h : heap) (options c : value) :
  spread_props h options !! "comparator" = Some c →
  resolve_comparator h options = c.
Proof.
  intros H. unfold resolve_comparator. by rewrite field_merge_options, H.
Qed.

(** ** Array keys *)

(** The decimal spelling of an index starts with a digit. *)
Lemma pretty_N_go_head (x : N) (s : string) :
  (0 < x)%N → ∃ d rest, pretty_N_go x s = String (pretty_N_char d) rest.
Proof.
  revert s. induction (N.lt_wf_0 x) as [x _ IH]. intros s Hx.
  rewrite pretty_N_go_step by done.
  destruct (decide (x `div` 10 = 0)%N) as [->|Hq].
  - rewrite pretty_N_go_0. eauto.
  - apply IH.
    + apply N.div_lt; [done|]. reflexivity.
    + apply N.neq_0_lt_0. exact Hq.
Qed.

Lemma pretty_nat_head (i : nat) :
  ∃ d rest, pretty i = String (pretty_N_char d) rest.
Proof.
  unfold pretty, pretty_nat, pretty, pretty_N.
  case_decide as Hi.
  - by exists 0%N, EmptyString.
  - apply pretty_N_go_head. lia.
Qed.

Lemma pretty_nat_not_name (i : nat) (k : string) :
  starts_with_letter k → pretty i ≠ k.
Proof.
  intros Hk Heq. destruct (pretty_nat_head i) as (d & rest & Hd).
  subst k. rewrite Hd in Hk. by apply (Hk d).
Qed.

Lemma not_digit_letter (c : ascii) :
  (if decide (c ∈ ["0"; "1"; "2"; "3"; "4"; "5"; "6"; "7"; "8"; "9"]%char)
   then False else True) →
  ∀ d, pretty_N_char d ≠ c.
Proof.
  case_decide as Hc; [done|]. intros _ d <-. apply Hc.
  unfold pretty_N_char. repeat case_match; set_solver.
Qed.

Lemma name_length : starts_with_letter "length".
Proof. exact (not_digit_letter "l" I). Qed.
Lemma name_this : starts_with_letter "this".
Proof. exact (not_digit_letter "t" I). Qed.
Lemma name_thisArg : starts_with_letter "thisArg".
Proof. exact (not_digit_letter "t" I). Qed.
Lemma name_comparator : starts_with_letter "comparator".
Proof. exact (not_digit_letter "c" I). Qed.

Lemma array_index_pretty (i n : nat) :
  i < n → array_index (pretty i) n = Some i.
Proof.
  intros Hi. unfold array_index.
  destruct (list_find _ _) as [[j y]|] eqn:E; simpl.
  - apply list_find_Some in E as (_ & Hy & _). by apply (inj pretty) in Hy as ->.
  - apply list_find_None in E. rewrite Forall_forall in E.
    exfalso. apply (E i); [|done]. apply elem_of_seq. lia.
Qed.

Lemma array_index_name (k : string) (n : nat) :
  starts_with_letter k → array_index k n = None.
Proof.
  intros Hk. unfold array_index.
  destruct (list_find _ _) as [[j y]|] eqn:E; simpl; [|done].
  apply list_find_Some in E as (_ & Hy & _). by apply pretty_nat_not_name in Hy.
Qed.

Lemma indexed_props_name (els : list value) (k : string) :
  starts_with_letter k → indexed_props els !! k = None.
Proof.
  intros Hk. unfold indexed_props. apply not_elem_of_list_to_map_1.
  intros Hin. apply list_elem_of_fmap in Hin as ([k' v] & -> & Hin).
  apply elem_of_lookup_imap in Hin as (i & x & [= Hk' _] & _).
  simpl in Hk. by apply (pretty_nat_not_name i) in Hk.
Qed.

Lemma holey_props_name (slots : list (option value)) (k : string) :
  starts_with_letter k → holey_props slots !! k = None.
Proof.
  intros Hk. unfold holey_props. apply not_elem_of_list_to_map_1.
  intros Hin. apply list_elem_of_fmap in Hin as ([k' v] & -> & Hin).
  apply list_elem_of_omap in Hin as (i & _ & Hi).
  destruct (slot slots i) as [w|]; simpl in Hi; [|done].
  injection Hi as Hk' _. simpl in Hk. by apply (pretty_nat_not_name i) in Hk.
Qed.

(** An array or a string in the place of the options supplies none of
    the three option fields, and neither does a primitive. *)
Lemma spread_props_no_name (h : heap) (v : value) (k : string) :
  starts_with_letter k →
  (∀ a ps, v = VObj a → deref h a ≠ ORecord ps) →
  spread_props h v !! k = None.
Proof.
  intros Hk Hv. destruct v as [| |b|n|str|a|f]; simpl; try done.
  - by apply indexed_props_name.
  - destruct (deref h a) as [els|slots|ps] eqn:E.
    + by apply indexed_props_name.
    + by apply holey_props_name.
    + by destruct (Hv a ps).
Qed.

(** ** shallowEqual *)

Lemma array_key_check (xs ys : list value) (i : nat) :
  i < length xs → length xs = length ys →
  negb (negb (has_own_property (OArray ys) (pretty i))
        || negb (strict_equals (get_own (OArray xs) (pretty i))
                               (get_own (OArray ys) (pretty i))))
  = strict_equals (default VUndefined (xs !! i)) (default VUndefined (ys !! i)).
Proof.
  intros Hi Hlen. unfold has_own_property, get_own.
  rewrite (bool_decide_eq_false_2 (pretty i = "length"))
    by (apply pretty_nat_not_name, name_length).
  rewrite !array_index_pretty by lia. simpl.
  by rewrite negb_involutive.
Qed.

Local Arguments has_own_property : simpl never.
Local Arguments get_own : simpl never.

Lemma shallowEqual_arrays (h : heap) (p n : addr) (xs ys : list value) :
  h !! p = Some (OArray xs) → h !! n = Some (OArray ys) →
  shallowEqual h (VObj p) (VObj n) = true
  ↔ p = n
    ∨ (length xs = length ys
       ∧ ∀ i x y, xs !! i = Some x → ys !! i = Some y → strict_equals x y = true).
Proof.
  intros Hp Hn. unfold shallowEqual. simpl.
  case_bool_decide as Hpn; [by split; [left|]|].
  rewrite (deref_lookup _ _ _ Hp), (deref_lookup _ _ _ Hn). simpl.
  rewrite !length_fmap, !length_seq.
  case_bool_decide as Hlen; simpl.
  - rewrite forallb_forall. split.
    + intros Hall. right. split; [done|]. intros i x y Hx Hy.
      assert (i < length xs) as Hi by by eapply lookup_lt_Some.
      specialize (Hall (pretty i)).
      rewrite array_key_check, Hx, Hy in Hall by done. apply Hall.
      apply list_elem_of_In, list_elem_of_fmap. exists i. split; [done|].
      apply elem_of_seq. lia.
    + intros [?|[_ Hall]]; [done|]. intros k Hk.
      apply list_elem_of_In, list_elem_of_fmap in Hk as (i & -> & Hi).
      apply elem_of_seq in Hi.
      rewrite array_key_check by (done || lia).
      destruct (lookup_lt_is_Some_2 xs i) as [x Hx]; [lia|].
      destruct (lookup_lt_is_Some_2 ys i) as [y Hy]; [lia|].
      rewrite Hx, Hy. simpl. by eapply Hall.
  - split; [done|]. by intros [?|[? _]].
Qed.

Lemma shallowEqual_scalars (h : heap) (prev next : value) :
  is_composite prev = false ∨ is_composite next = false →
  shallowEqual h prev next = strict_equals prev next.
Proof.
  unfold shallowEqual, is_composite.
  destruct (strict_equals prev next) eqn:E; [done|].
  intros [H|H]; destruct prev, next; simpl in *; done.
Qed.

(** ** Options *)

Lemma field_truthy_supplied (h : heap) (options : value) (k : string) (v : value) :
  truthy_supplied h options k v → field (merge_options h options) k = v.
Proof. intros [Hk _]. by rewrite field_merge_options, Hk. Qed.

Lemma field_not_truthy (h : heap) (options : value) (k : string) :
  k = "this" ∨ k = "thisArg" →
  (∀ v, ¬ truthy_supplied h options k v) →
  to_boolean (field (merge_options h options) k) = false.
Proof.
  intros Hk Hnone. rewrite field_merge_options.
  destruct (spread_props h options !! k) as [v|] eqn:E.
  - apply not_true_is_false. intros Hv. by apply (Hnone v).
  - by destruct Hk as [-> | ->].
Qed.

(** C5, as the code has it.  One context is resolved per call: the [this]
    option when it is supplied with a truthy value; otherwise the
    [thisArg] option when it is supplied with a truthy value; otherwise
    [globalThis].  A value that is not truthy is passed over as if it had
    not been supplied. *)
Theorem resolve_this_priority (h : heap) (options : value) :
  (∀ v, truthy_supplied h options "this" v → resolve_this h options = v)
  ∧ (∀ w,
       (∀ v, ¬ truthy_supplied h options "this" v) →
       truthy_supplied h options "thisArg" w →
       resolve_this h options = w)
  ∧ ((∀ v, ¬ truthy_supplied h options "this" v) →
     (∀ w, ¬ truthy_supplied h options "thisArg" w) →
     resolve_this h options = globalThis).
Proof.
  unfold resolve_this, js_or. split; [|split].
  - intros v Hv. rewrite (field_truthy_supplied _ _ _ _ Hv).
    destruct Hv as [_ Hv]. rewrite Hv. simpl. by rewrite Hv.
  - intros w Hthis Hw.
    rewrite (field_not_truthy h options "this") by auto.
    rewrite (field_truthy_supplied _ _ _ _ Hw).
    destruct Hw as [_ Hw]. by rewrite Hw.
  - intros Hthis Halias.
    rewrite (field_not_truthy h options "this") by auto.
    by rewrite (field_not_truthy h options "thisArg") by auto.
Qed.

(** ** The engine *)

Section ReCallFacts.

Variable fn_length : fn → nat.
Variable fn_apply : fn → value → value → heap → completion value * heap.
Variable fn_compare : fn → heap → value → value → completion bool.

Local Abbreviation call_comparator := (call_comparator fn_compare).
Local Abbreviation invoke := (invoke fn_apply).
Local Abbreviation _reCall := (_reCall fn_apply fn_compare).
Local Abbreviation hit_condition := (hit_condition fn_compare).
Local Abbreviation raised_in_call := (raised_in_call fn_apply fn_compare).
Local Abbreviation parseRestParams := (parseRestParams fn_length).
Local Abbreviation byRef := (byRef fn_length fn_apply fn_compare).
Local Abbreviation shallow := (shallow fn_length fn_apply fn_compare).
Local Abbreviation deep := (deep fn_length fn_apply fn_compare).
Local Abbreviation wrap := (wrap fn_apply fn_compare).
Local Abbreviation wrapShallow := (wrapShallow fn_apply fn_compare).
Local Abbreviation wrapDeep := (wrapDeep fn_apply fn_compare).
Local Abbreviation wrap_calls := (wrap_calls fn_apply fn_compare).

Lemma invoke_calls f t ps s :
  calls (invoke f t ps s).2 = calls s ++ [(f, t, ps)].
Proof. unfold invoke. destruct (fn_apply f t ps (mem s)) as [[r|e] h']; done. Qed.

Lemma invoke_not_hit f t ps s : ¬ is_hit s (invoke f t ps s).
Proof.
  intros (v & _ & Hc). rewrite invoke_calls in Hc. by apply snoc_neq in Hc.
Qed.

Lemma invoke_normal f t ps s r s' :
  invoke f t ps s = (Normal r, s') →
  cache s' = <[f := CacheRecord r ps t]> (cache s)
  ∧ calls s' = calls s ++ [(f, t, ps)].
Proof.
  unfold invoke. destruct (fn_apply f t ps (mem s)) as [[r0|e] h']; [|done].
  by intros [= <- <-].
Qed.

Lemma invoke_throw f t ps s e s' :
  invoke f t ps s = (Throw e, s') →
  cache s' = cache s ∧ ∃ h', fn_apply f t ps (mem s) = (Throw e, h').
Proof.
  unfold invoke. destruct (fn_apply f t ps (mem s)) as [[r0|e0] h'] eqn:E; [done|].
  intros [= <- <-]. eauto.
Qed.

(** The engine either answers from the record or runs the miss path. *)
Lemma reCall_cases f ps options s :
  (hit_condition f ps options s
   ∧ ∃ cacheData, cache s !! f = Some cacheData
                  ∧ _reCall f ps options s = (Normal (result cacheData), s))
  ∨ (¬ hit_condition f ps options s
     ∧ ((∃ e cacheData, cache s !! f = Some cacheData
                        ∧ call_comparator (mem s) (resolve_comparator (mem s) options)
                            (params cacheData) ps = Throw e
                        ∧ _reCall f ps options s = (Throw e, s))
        ∨ _reCall f ps options s = invoke f (resolve_this (mem s) options) ps s)).
Proof.
  unfold _reCall, hit_condition.
  destruct (cache s !! f) as [cd|] eqn:Hcd.
  - destruct (call_comparator _ _ _ _) as [[|]|e] eqn:Hcmp.
    + destruct (strict_equals _ _) eqn:Hctx.
      * apply strict_equals_truthy in Hctx; [|apply resolve_this_truthy].
        left. split; eauto.
      * right. split; [|by right].
        intros (cd' & [= <-] & _ & Heq).
        apply (strict_equals_truthy _ _ (resolve_this_truthy _ _)) in Heq.
        congruence.
    + right. split; [|by right]. intros (cd' & [= <-] & Hc & _). congruence.
    + right. split; [|left; eauto].
      intros (cd' & [= <-] & Hc & _). congruence.
  - right. split; [|by right]. by intros (cd' & ? & _).
Qed.

(** C1.  A call is a cache hit exactly when a record for [f] exists, the
    resolved comparator answers true on the stored snapshot and the
    arguments, and the stored context is the resolved context.  On a hit
    the stored result is returned and the state, call log included, is
    left as it was.  After a first call that ran [f] and returned, a second
    call with a snapshot the comparator accepts and the same context
    returns the first result, and [f] has run exactly once over both. *)
Theorem reCall_hit_iff (f : fn) (ps options : value) (s : state) :
  (is_hit s (_reCall f ps options s) ↔ hit_condition f ps options s)
  ∧ (∀ cacheData,
       cache s !! f = Some cacheData →
       hit_condition f ps options s →
       _reCall f ps options s = (Normal (result cacheData), s))
  ∧ (∀ r s1,
       _reCall f ps options s = (Normal r, s1) →
       ¬ is_hit s (_reCall f ps options s) →
       ∀ ps2 options2,
         call_comparator (mem s1) (resolve_comparator (mem s1) options2) ps ps2
           = Normal true →
         resolve_this (mem s1) options2 = resolve_this (mem s) options →
         _reCall f ps2 options2 s1 = (Normal r, s1)
         ∧ invocations f (calls (_reCall f ps2 options2 s1).2)
           = S (invocations f (calls s))).
Proof.
  split; [|split].
  - destruct (reCall_cases f ps options s)
      as [[Hc (cd & Hcd & ->)]|[Hn [(e & cd & Hcd & Hcmp & ->)| ->]]].
    + split; [done|]. intros _. by exists (result cd).
    + split; [|done]. by intros (v & Hv & _).
    + split; [|done]. intros H. by apply invoke_not_hit in H.
  - intros cd Hcd Hc.
    destruct (reCall_cases f ps options s)
      as [[_ (cd' & Hcd' & ->)]|[Hn _]]; [|done].
    congruence.
  - intros r s1 Hcall Hmiss ps2 options2 Hcmp Hctx.
    destruct (reCall_cases f ps options s)
      as [[_ (cd & _ & Heq)]|[_ [(e & cd & _ & _ & Heq)|Heq]]].
    + exfalso. apply Hmiss. rewrite Heq. by exists (result cd).
    + congruence.
    + rewrite Heq in Hcall. apply invoke_normal in Hcall as [Hcache Hcalls].
      assert (_reCall f ps2 options2 s1 = (Normal r, s1)) as Hsecond.
      { unfold _reCall. rewrite Hcache, lookup_insert_eq. simpl.
        rewrite Hcmp, Hctx.
        by rewrite (proj2 (strict_equals_truthy _ _ (resolve_this_truthy _ _)) eq_refl). }
      split; [done|]. rewrite Hsecond. simpl.
      by rewrite Hcalls, invocations_snoc.
Qed.


(** C3, as the code has it.  A call that returns leaves a record for [f]
    that holds the returned result and the resolved context.  On a miss
    the record is replaced by the result, snapshot and context of this
    call; on a hit nothing is written: the state is the one the call
    started in, and the record keeps the earlier snapshot, which the
    comparator accepted against the arguments of this call. *)
Theorem reCall_record_after_call (f : fn) (ps options : value) (s : state)
    (r : value) (s' : state) :
  _reCall f ps options s = (Normal r, s') →
  peek f s' = r
  ∧ ((¬ hit_condition f ps options s
      ∧ cache s' = <[f := CacheRecord r ps (resolve_this (mem s) options)]> (cache s))
     ∨ (hit_condition f ps options s
        ∧ s' = s
        ∧ ∃ cacheData,
            cache s !! f = Some cacheData
            ∧ result cacheData = r
            ∧ thisArg cacheData = resolve_this (mem s) options
            ∧ call_comparator (mem s) (resolve_comparator (mem s) options)
                (params cacheData) ps = Normal true)).
Proof.
  intros Hcall.
  destruct (reCall_cases f ps options s)
    as [[Hc (cd & Hcd & Heq)]|[Hn [(e & cd & _ & _ & Heq)|Heq]]].
  - rewrite Heq in Hcall. injection Hcall as <- <-.
    split; [unfold peek; by rewrite Hcd|].
    right. split; [done|]. split; [done|].
    destruct Hc as (cd' & Hcd' & Hcmp & Hctx).
    exists cd. rewrite Hcd in Hcd'. injection Hcd' as <-. done.
  - congruence.
  - rewrite Heq in Hcall. apply invoke_normal in Hcall as [Hcache _].
    split; [unfold peek; by rewrite Hcache, lookup_insert_eq|].
    left. done.
Qed.

(** ** The wrappers *)

Lemma set_mem_wf (s : state) (h : heap) :
  cache_wf s → length (mem s) ≤ length h → cache_wf (set_mem s h).
Proof.
  intros Hwf Hle g cd Hcd. simpl in *. eapply value_ok_le; [done|]. by eapply Hwf.
Qed.

Lemma invoke_wf f t ps s :
  heap_monotone fn_apply → value_ok (mem s) ps → cache_wf s →
  cache_wf (invoke f t ps s).2.
Proof.
  intros Hmono Hps Hwf. unfold invoke.
  pose proof (Hmono f t ps (mem s)) as Hle.
  destruct (fn_apply f t ps (mem s)) as [[r|e] h']; simpl in *.
  - intros g cd. simpl. rewrite lookup_insert. case_decide as Hg.
    + intros [= <-]. simpl. by eapply value_ok_le.
    + intros Hcd. eapply value_ok_le; [done|]. by eapply Hwf.
  - intros g cd Hcd. simpl in *. eapply value_ok_le; [done|]. by eapply Hwf.
Qed.

Lemma reCall_wf f ps options s :
  heap_monotone fn_apply → value_ok (mem s) ps → cache_wf s →
  cache_wf (_reCall f ps options s).2.
Proof.
  intros Hmono Hps Hwf.
  destruct (reCall_cases f ps options s)
    as [[_ (cd & _ & ->)]|[_ [(e0 & cd & _ & _ & ->)| ->]]]; simpl; try done.
  by apply invoke_wf.
Qed.

(** Under [Object.is], arguments that no record holds are a miss. *)
Lemma reCall_by_reference_fresh f ps options s :
  (∀ cacheData, cache s !! f = Some cacheData → params cacheData ≠ ps) →
  resolve_comparator (mem s) options = VFun Object_is →
  _reCall f ps options s = invoke f (resolve_this (mem s) options) ps s.
Proof.
  intros Hfresh Hcmp. unfold _reCall. rewrite Hcmp.
  destruct (cache s !! f) as [cd|] eqn:Hcd; [|done]. simpl.
  unfold same_value. by rewrite bool_decide_eq_false_2 by by apply Hfresh.
Qed.

Lemma wrap_miss f options args s :
  cache_wf s → omits_comparator (mem s) options →
  ∃ h t,
    length (mem s) < length h
    ∧ wrap f options args s = invoke f t (VObj (length (mem s))) (set_mem s h).
Proof.
  intros Hwf [Hok Hnone]. unfold wrap, alloc, nullish_default.
  assert (∀ h cd, cache (set_mem s h) !! f = Some cd →
                  params cd ≠ VObj (length (mem s))) as Hfresh.
  { intros h cd Hcd Heq. apply Hwf in Hcd. rewrite Heq in Hcd. simpl in Hcd. lia. }
  destruct (is_nullish options) eqn:Hnull.
  - eexists _, _. split; [|apply reCall_by_reference_fresh; [by apply Hfresh|]].
    + rewrite !length_app. simpl. lia.
    + apply resolve_comparator_default. simpl. by rewrite deref_alloc.
  - eexists _, _. split; [|apply reCall_by_reference_fresh; [by apply Hfresh|]].
    + rewrite !length_app. simpl. lia.
    + apply resolve_comparator_default. simpl. by rewrite spread_props_app.
Qed.

Lemma wrap_invokes f options args s :
  cache_wf s → omits_comparator (mem s) options →
  invocations f (calls (wrap f options args s).2) = S (invocations f (calls s)).
Proof.
  intros Hwf Hopt.
  destruct (wrap_miss f options args s Hwf Hopt) as (h & t & _ & ->).
  by rewrite invoke_calls, invocations_snoc.
Qed.

Lemma wrap_wf f options args s :
  heap_monotone fn_apply → cache_wf s → omits_comparator (mem s) options →
  cache_wf (wrap f options args s).2.
Proof.
  intros Hmono Hwf Hopt.
  destruct (wrap_miss f options args s Hwf Hopt) as (h & t & Hlt & ->).
  apply invoke_wf; [done|simpl; lia|]. apply set_mem_wf; [done|lia].
Qed.

Lemma wrap_calls_invocations f argss s :
  heap_monotone fn_apply → cache_wf s →
  invocations f (calls (wrap_calls f argss s)) = invocations f (calls s) + length argss
  ∧ cache_wf (wrap_calls f argss s).
Proof.
  intros Hmono. revert s. induction argss as [|args argss IH]; intros s Hwf; simpl.
  - split; [lia|done].
  - assert (omits_comparator (mem s) VUndefined) as Hopt by done.
    destruct (IH (wrap f VUndefined args s).2) as [Hn Hw]; [by apply wrap_wf|].
    split; [|done]. change (wrap_calls f (args :: argss) s)
      with (wrap_calls f argss (wrap f VUndefined args s).2).
    rewrite Hn, wrap_invokes by done. lia.
Qed.

(** C9.  A function made by [wrap] whose options omit a comparator never
    answers from the cache: in every well-formed state a call of the
    wrapper applies [fn] once more; the arguments are collected into an
    array allocated by that call, which [Object.is] tells apart from every
    stored snapshot.  So any sequence of calls of [wrap(fn)] applies [fn] as
    many times as the wrapper is called. *)
Theorem wrap_default_never_hits (f : fn) (options : value) (args : list value)
    (s : state) :
  heap_monotone fn_apply →
  cache_wf s →
  omits_comparator (mem s) options →
  ¬ is_hit s (wrap f options args s)
  ∧ invocations f (calls (wrap f options args s).2) = S (invocations f (calls s))
  ∧ cache_wf (wrap f options args s).2
  ∧ ∀ argss,
      invocations f (calls (wrap_calls f argss s))
      = invocations f (calls s) + length argss.
Proof.
  intros Hmono Hwf Hopt. split; [|split; [|split]].
  - intros (v & _ & Hc).
    destruct (wrap_miss f options args s Hwf Hopt) as (h & t & _ & Heq).
    rewrite Heq, invoke_calls in Hc. simpl in Hc. by apply snoc_neq in Hc.
  - by apply wrap_invokes.
  - by apply wrap_wf.
  - intros argss. by apply wrap_calls_invocations.
Qed.

(** ** The entry points *)

Lemma reCall_throw_origin f ps options s e s' :
  _reCall f ps options s = (Throw e, s') → raised_in_call f ps options s e.
Proof.
  intros Hcall.
  destruct (reCall_cases f ps options s)
    as [[_ (cd & _ & Heq)]|[_ [(e0 & cd & Hcd & Hcmp & Heq)|Heq]]];
    rewrite Heq in Hcall.
  - done.
  - injection Hcall as -> _. right. eauto.
  - apply invoke_throw in Hcall as [_ [h' Happ]]. left. eauto.
Qed.

Lemma parseRestParams_zero_arity f x more h :
  fn_length f = 0 → is_nullish x = false →
  parseRestParams f (x :: more) h = (VObj (length h), x, h ++ [OArray []]).
Proof.
  intros Hlen Hx. unfold parseRestParams, nth_arg, nullish_default, alloc. simpl.
  by rewrite bool_decide_eq_true_2, Hx.
Qed.

Lemma parseRestParams_with_options f ps o more h :
  fn_length f ≠ 0 → is_nullish ps = false → is_nullish o = false →
  parseRestParams f (ps :: o :: more) h = (ps, o, h).
Proof.
  intros Hlen Hps Ho. unfold parseRestParams, nth_arg, nullish_default. simpl.
  by rewrite bool_decide_eq_false_2, Hps, Ho.
Qed.

Lemma resolve_this_default h options :
  spread_props h options !! "this" = None →
  spread_props h options !! "thisArg" = None →
  resolve_this h options = globalThis.
Proof.
  intros Ht Ha. unfold resolve_this. by rewrite !field_merge_options, Ht, Ha.
Qed.

Lemma nullish_default_ok v o h :
  value_ok h v →
  value_ok (nullish_default v o h).2 (nullish_default v o h).1
  ∧ length h ≤ length (nullish_default v o h).2.
Proof.
  intros Hv. unfold nullish_default, alloc.
  destruct (is_nullish v); simpl; [|by split].
  rewrite length_app. simpl. split; lia.
Qed.

Lemma nth_arg_ok h rest i :
  Forall (value_ok h) rest → value_ok h (nth_arg rest i).
Proof.
  intros Hall. unfold nth_arg. destruct (rest !! i) as [v|] eqn:E; [|done].
  by eapply Forall_lookup_1.
Qed.

Lemma parseRestParams_ok f rest h ps o h' :
  Forall (value_ok h) rest →
  parseRestParams f rest h = (ps, o, h') →
  value_ok h' ps ∧ length h ≤ length h'.
Proof.
  intros Hall. unfold parseRestParams. case_bool_decide.
  - unfold alloc.
    destruct (nullish_default_ok (nth_arg rest 0) (ORecord ∅) (h ++ [OArray []]))
      as [_ Hle]; [by apply value_ok_app, nth_arg_ok|].
    destruct (nullish_default _ _ _) as [o1 h1]. intros [= <- <- <-].
    simpl in *. rewrite length_app in Hle. simpl in Hle. split; lia.
  - destruct (nullish_default_ok (nth_arg rest 0) (OArray []) h)
      as [Hps Hle]; [by apply nth_arg_ok|].
    destruct (nullish_default (nth_arg rest 0) _ h) as [ps1 h1]. simpl in *.
    destruct (nullish_default_ok (nth_arg rest 1) (ORecord ∅) h1)
      as [_ Hle']; [eapply value_ok_le; [done|by apply nth_arg_ok]|].
    destruct (nullish_default (nth_arg rest 1) _ h1) as [o1 h2]. simpl in *.
    intros [= <- <- <-]. split; [by eapply value_ok_le|lia].
Qed.

(** Every entry point keeps the cache well formed, so the states a program
    reaches from the empty cache are. *)
Lemma entry_points_wf f rest s :
  heap_monotone fn_apply → cache_wf s → Forall (value_ok (mem s)) rest →
  cache_wf (byRef f rest s).2
  ∧ cache_wf (shallow f rest s).2
  ∧ cache_wf (deep f rest s).2.
Proof.
  intros Hmono Hwf Hall. unfold byRef, shallow, deep, with_comparator, alloc.
  destruct (parseRestParams f rest (mem s)) as [[ps o] h] eqn:E.
  apply parseRestParams_ok in E as [Hps Hle]; [|done].
  split; [|split]; (apply reCall_wf; [done| |apply set_mem_wf; [done|]]); simpl;
    rewrite ?length_app; simpl; try lia; try done; by apply value_ok_app.
Qed.

Lemma wrappers_wf f options args s :
  heap_monotone fn_apply → cache_wf s →
  cache_wf (wrap f options args s).2
  ∧ cache_wf (wrapShallow f args s).2
  ∧ cache_wf (wrapDeep f args s).2.
Proof.
  intros Hmono Hwf. unfold wrap, wrapShallow, wrapDeep, nullish_default, alloc.
  destruct (is_nullish options);
    (split; [|split]); (apply reCall_wf; [done| |apply set_mem_wf; [done|]]);
    simpl; rewrite ?length_app; simpl; lia.
Qed.

Lemma resolve_comparator_with (c : fn) (options : value) (h : heap) :
  with_comparator c options h
  = (VObj (length h),
     h ++ [ORecord (<["comparator" := VFun c]> (spread_props h options))])
  ∧ resolve_comparator
      (h ++ [ORecord (<["comparator" := VFun c]> (spread_props h options))])
      (VObj (length h)) = VFun c.
Proof.
  split; [done|]. apply resolve_comparator_own. simpl.
  by rewrite deref_alloc, lookup_insert_eq.
Qed.

Lemma resolve_comparator_record (h ext : heap) (o : addr) (m : gmap string value)
    (c : value) :
  h !! o = Some (ORecord m) → m !! "comparator" = Some c →
  resolve_comparator (h ++ ext) (VObj o) = c.
Proof.
  intros Ho Hc. apply resolve_comparator_own. simpl.
  rewrite deref_app_l by by eapply lookup_lt_Some.
  by rewrite (deref_lookup _ _ _ Ho).
Qed.

(** C10.  [shallow], [deep], [wrapShallow] and [wrapDeep] hand the engine
    options whose comparator is their own strategy, whatever the caller
    passed; [byRef] and [wrap] hand it the caller's options, so that the
    comparator found there is the one the engine uses. *)
Theorem strategy_overrides_comparator (f : fn) (rest args : list value) (s : state) :
  (∀ ps o h,
     parseRestParams f rest (mem s) = (ps, o, h) →
     let h' := h ++ [ORecord (<["comparator" := VFun FnShallowEqual]> (spread_props h o))] in
     shallow f rest s = _reCall f ps (VObj (length h)) (set_mem s h')
     ∧ resolve_comparator h' (VObj (length h)) = VFun FnShallowEqual)
  ∧ (∀ ps o h,
       parseRestParams f rest (mem s) = (ps, o, h) →
       let h' := h ++ [ORecord (<["comparator" := VFun FnDeepEqual]> (spread_props h o))] in
       deep f rest s = _reCall f ps (VObj (length h)) (set_mem s h')
       ∧ resolve_comparator h' (VObj (length h)) = VFun FnDeepEqual)
  ∧ (let h := mem s ++ [OArray args] in
     let h' := h ++ [ORecord (<["comparator" := VFun FnShallowEqual]> ∅)] in
     wrapShallow f args s
     = _reCall f (VObj (length (mem s))) (VObj (length h)) (set_mem s h')
     ∧ resolve_comparator h' (VObj (length h)) = VFun FnShallowEqual)
  ∧ (let h := mem s ++ [OArray args] in
     let h' := h ++ [ORecord (<["comparator" := VFun FnDeepEqual]> ∅)] in
     wrapDeep f args s
     = _reCall f (VObj (length (mem s))) (VObj (length h)) (set_mem s h')
     ∧ resolve_comparator h' (VObj (length h)) = VFun FnDeepEqual)
  ∧ invocations (UserFn 1) (calls shallow_custom_twice) = 2
  ∧ invocations (UserFn 1) (calls byRef_custom_twice) = 1
  ∧ (∀ o m c,
       mem s !! o = Some (ORecord m) → m !! "comparator" = Some c →
       (∀ ps more,
          fn_length f ≠ 0 → is_nullish ps = false → rest = ps :: VObj o :: more →
          byRef f rest s = _reCall f ps (VObj o) (set_mem s (mem s))
          ∧ resolve_comparator (mem s) (VObj o) = c)
       ∧ (∀ more,
            fn_length f = 0 → rest = VObj o :: more →
            byRef f rest s
            = _reCall f (VObj (length (mem s))) (VObj o)
                (set_mem s (mem s ++ [OArray []]))
            ∧ resolve_comparator (mem s ++ [OArray []]) (VObj o) = c)
       ∧ (wrap f (VObj o) args s
          = _reCall f (VObj (length (mem s))) (VObj o)
              (set_mem s (mem s ++ [OArray args]))
          ∧ resolve_comparator (mem s ++ [OArray args]) (VObj o) = c)).
Proof.
  split; [|split; [|split; [|split; [|split; [|split]]]]].
  - intros ps o h Hparse h'. unfold shallow. rewrite Hparse.
    destruct (resolve_comparator_with FnShallowEqual o h) as [-> Hc]. done.
  - intros ps o h Hparse h'. unfold deep. rewrite Hparse.
    destruct (resolve_comparator_with FnDeepEqual o h) as [-> Hc]. done.
  - intros h h'. split; [done|].
    apply resolve_comparator_own. simpl. subst h'.
    by rewrite deref_alloc, lookup_insert_eq.
  - intros h h'. split; [done|].
    apply resolve_comparator_own. simpl. subst h'.
    by rewrite deref_alloc, lookup_insert_eq.
  - by vm_compute.
  - by vm_compute.
  - intros o m c Ho Hc. split; [|split].
    + intros ps more Hlen Hps ->. split.
      * unfold byRef. by rewrite parseRestParams_with_options.
      * rewrite <- (app_nil_r (mem s)). by eapply resolve_comparator_record.
    + intros more Hlen ->. split.
      * unfold byRef. by rewrite parseRestParams_zero_arity.
      * by eapply resolve_comparator_record.
    + split; [done|]. by eapply resolve_comparator_record.
Qed.

End ReCallFacts.

(** ** The cache utilities *)

Lemma cache_utilities_wf (f : fn) (s : state) :
  cache_wf s → cache_wf (clearOne f s) ∧ cache_wf (clearAll s).
Proof.
  intros Hwf. split; intros g cd; simpl.
  - intros Hcd. apply lookup_delete_Some in Hcd as [_ Hcd]. by eapply Hwf.
  - by rewrite lookup_empty.
Qed.

Lemma clearOne_evicts (f : fn) (s : state) :
  hasCache f (clearOne f s) = false ∧ peek f (clearOne f s) = VUndefined.
Proof.
  unfold hasCache, peek, clearOne. simpl. rewrite lookup_delete_eq.
  split; [|done]. apply bool_decide_eq_false_2. by intros [? ?].
Qed.

Lemma clearAll_evicts (f : fn) (s : state) : hasCache f (clearAll s) = false.
Proof.
  unfold hasCache, clearAll. simpl. rewrite lookup_empty.
  apply bool_decide_eq_false_2. by intros [? ?].
Qed.

(** ** Functions without parameters under [byRef] *)

Lemma byRef_zero_arity_miss
    (fn_length : fn → nat)
    (fn_apply : fn → value → value → heap → completion value * heap)
    (fn_compare : fn → heap → value → value → completion bool)
    (f : fn) (rest : list value) (s : state) :
  fn_length f = 0 → cache_wf s → omits_comparator (mem s) (nth_arg rest 0) →
  invocations f (calls (byRef fn_length fn_apply fn_compare f rest s).2)
  = S (invocations f (calls s)).
Proof.
  intros Hlen Hwf [Hok Hnone]. unfold byRef, parseRestParams, nullish_default, alloc.
  rewrite bool_decide_eq_true_2 by done.
  assert (∀ h cd, cache (set_mem s h) !! f = Some cd →
                  params cd ≠ VObj (length (mem s))) as Hfresh.
  { intros h cd Hcd Heq. apply Hwf in Hcd. rewrite Heq in Hcd. simpl in Hcd. lia. }
  destruct (is_nullish (nth_arg rest 0)) eqn:Hnull; cbv beta iota zeta.
  - rewrite reCall_by_reference_fresh; [|by apply Hfresh|].
    + by rewrite invoke_calls, invocations_snoc.
    + apply resolve_comparator_default. simpl. by rewrite deref_alloc.
  - rewrite reCall_by_reference_fresh; [|by apply Hfresh|].
    + by rewrite invoke_calls, invocations_snoc.
    + apply resolve_comparator_default. simpl. by rewrite spread_props_app.
Qed.

(** C4.  What the code does for a function that takes no parameter:
    [parseRestParams] makes a new empty array for every call, [Object.is]
    tells it apart from the stored one, and the second [byRef(f)] applies
    [f] again; under [shallow] the second call is answered from the
    cache. *)
Theorem byRef_zero_arity_reinvokes :
  demo_length (UserFn 0) = 0
  ∧ invocations (UserFn 0) (calls byRef_noarg_twice) = 2
  ∧ invocations (UserFn 0) (calls shallow_noarg_twice) = 1.
Proof. by vm_compute. Qed.

(** ** Inputs on which the claims C3, C5 and C6 fail as written *)

(** A hit returns and leaves the earlier snapshot in the record: after the
    second call the record holds the array at address 1, not the array at
    address 3 the call was made with. *)
Lemma reCall_hit_keeps_snapshot :
  ∃ r s',
    _reCall demo_apply demo_compare (UserFn 1) (VObj 3) (VObj 2) after_first_call
    = (Normal r, s')
    ∧ cache s' !! UserFn 1 = Some (CacheRecord (num 1) (VObj 1) globalThis)
    ∧ ¬ record_is_of_call (UserFn 1) (VObj 3) (VObj 2) after_first_call r s'.
Proof.
  exists (num 1), after_first_call. split; [by vm_compute|].
  split; [by vm_compute|]. unfold record_is_of_call. by vm_compute.
Qed.

(** A [this] option of 0 is supplied and is not the resolved context. *)
Lemma resolve_this_skips_falsy :
  spread_props falsy_this (VObj 1) !! "this" = Some (num 0)
  ∧ resolve_this falsy_this (VObj 1) = VObj 2
  ∧ resolve_this falsy_this (VObj 1) ≠ num 0.
Proof. by vm_compute. Qed.

(** [byRef(f, [1, 2])] for an [f] that declares no parameter returns what
    [f()] returns; no error is raised. *)
Lemma byRef_accepts_malformed :
  demo_length (UserFn 0) = 0
  ∧ (let '(args, s) := literal (OArray [num 1; num 2]) initial in
     (byRef demo_length demo_apply demo_compare (UserFn 0) [args] s).1
     = Normal (VStr "data")
     ∧ ∀ e, (byRef demo_length demo_apply demo_compare (UserFn 0) [args] s).1
            ≠ Throw e).
Proof. split; [done|]. split; [by vm_compute|]. intros e. by vm_compute. Qed.

(** ** The theorems at the sample client *)

Lemma reCall_hit_iff_witness :
  _reCall demo_apply demo_compare (UserFn 1) (VObj 3) (VObj 2) after_first_call
  = (Normal (num 1), after_first_call)
  ∧ invocations (UserFn 1)
      (calls (_reCall demo_apply demo_compare (UserFn 1) (VObj 3) (VObj 2)
                after_first_call).2)
    = S (invocations (UserFn 1) (calls two_arrays)).
Proof.
  apply (proj2 (proj2 (reCall_hit_iff demo_apply demo_compare
                         (UserFn 1) (VObj 1) (VObj 2) two_arrays))).
  - by vm_compute.
  - intros (v & _ & H). vm_compute in H. discriminate.
  - by vm_compute.
  - by vm_compute.
Defined.


Lemma reCall_record_after_call_witness :
  peek (UserFn 1) after_first_call = num 1.
Proof.
  apply (reCall_record_after_call demo_apply demo_compare
           (UserFn 1) (VObj 1) (VObj 2) two_arrays (num 1) after_first_call).
  by vm_compute.
Defined.

Lemma resolve_this_priority_witness :
  resolve_this truthy_this (VObj 1) = VObj 2
  ∧ resolve_this falsy_this (VObj 1) = VObj 2
  ∧ resolve_this truthy_this VUndefined = globalThis.
Proof.
  split; [|split].
  - apply (proj1 (resolve_this_priority truthy_this (VObj 1))).
    split; by vm_compute.
  - apply (proj1 (proj2 (resolve_this_priority falsy_this (VObj 1)))).
    + intros v [H1 H2]. vm_compute in H1. injection H1 as <-. discriminate.
    + split; by vm_compute.
  - apply (proj2 (proj2 (resolve_this_priority truthy_this VUndefined)));
      intros v [H _]; vm_compute in H; discriminate.
Defined.

Lemma demo_apply_monotone : heap_monotone demo_apply.
Proof. intros g t p h. by destruct g as [| | |[|[|[|n]]]]. Defined.

Lemma initial_wf : cache_wf initial.
Proof. intros g cd H. simpl in H. by rewrite lookup_empty in H. Defined.

Lemma wrap_default_never_hits_witness :
  invocations (UserFn 1)
    (calls (wrap demo_apply demo_compare (UserFn 1) VUndefined [num 1; num 2]
              initial).2) = 1
  ∧ invocations (UserFn 1)
      (calls (wrap_calls demo_apply demo_compare (UserFn 1)
                [[num 1; num 2]; [num 1; num 2]; [num 1; num 2]] initial)) = 3.
Proof.
  pose proof (wrap_default_never_hits demo_apply demo_compare
                (UserFn 1) VUndefined [num 1; num 2] initial
                demo_apply_monotone initial_wf (conj I eq_refl))
    as (_ & H1 & _ & H2).
  split; [exact H1|]. exact (H2 [[num 1; num 2]; [num 1; num 2]; [num 1; num 2]]).
Defined.

Lemma strategy_overrides_comparator_witness :
  resolve_comparator
    (mem two_arrays
       ++ [ORecord (<["comparator" := VFun FnShallowEqual]>
                      (spread_props (mem two_arrays) (VObj 2)))])
    (VObj 4) = VFun FnShallowEqual
  ∧ resolve_comparator (mem two_arrays) (VObj 2) = VFun FnShallowEqual.
Proof.
  pose proof (strategy_overrides_comparator demo_length demo_apply demo_compare
                (UserFn 1) [VObj 1; VObj 2] [] two_arrays)
    as (H1 & _ & _ & _ & _ & _ & H7).
  split.
  - apply (H1 (VObj 1) (VObj 2) (mem two_arrays)). by vm_compute.
  - destruct (H7 2 (<["comparator" := VFun FnShallowEqual]> ∅) (VFun FnShallowEqual))
      as (Hb & _ & _); [done|done|].
    by apply (Hb (VObj 1) []).
Defined.


(** * Further properties of the code *)

(** ** shallowEqual on plain objects *)

Lemma strict_equals_sym (a b : value) : strict_equals a b = strict_equals b a.
Proof.
  destruct a as [| |x|x|x|x|x], b as [| |y|y|y|y|y]; simpl; try done;
    try (apply bool_decide_ext; by split).
  destruct x as [| |x], y as [| |y]; simpl; try done.
  apply bool_decide_ext. by split.
Qed.

Lemma deref_array (h : heap) (a : addr) (xs : list value) :
  deref h a = OArray xs → h !! a = Some (OArray xs).
Proof. unfold deref. destruct (h !! a) as [o|]; simpl; [by intros ->|done]. Qed.

Lemma shallowEqual_records_deref (h : heap) (p n : addr) (m1 m2 : gmap string value) :
  deref h p = ORecord m1 → deref h n = ORecord m2 →
  shallowEqual h (VObj p) (VObj n) = true
  ↔ p = n
    ∨ (size m1 = size m2
       ∧ ∀ k v, m1 !! k = Some v →
                ∃ w, m2 !! k = Some w ∧ strict_equals v w = true).
Proof.
  intros Hp Hn. unfold shallowEqual. simpl.
  case_bool_decide as Hpn; [by split; [left|]|].
  rewrite Hp, Hn. simpl. rewrite !length_fmap, !length_map_to_list.
  case_bool_decide as Hsize; simpl.
  - rewrite forallb_forall. unfold has_own_property, get_own. split.
    + intros Hall. right. split; [done|]. intros k v Hk.
      specialize (Hall k). rewrite Hk in Hall. simpl in Hall.
      assert (In k (map_to_list m1).*1) as Hin.
      { apply list_elem_of_In, list_elem_of_fmap. exists (k, v).
        split; [done|]. by apply elem_of_map_to_list. }
      apply Hall in Hin. apply negb_true_iff, orb_false_iff in Hin as [H1 H2].
      apply negb_false_iff in H1, H2. apply bool_decide_eq_true in H1 as [w Hw].
      rewrite Hw in H2. eauto.
    + intros [?|[_ Hall]]; [done|]. intros k Hin.
      apply list_elem_of_In, list_elem_of_fmap in Hin as ([k' v] & -> & Hin).
      apply elem_of_map_to_list in Hin. simpl.
      destruct (Hall k' v Hin) as (w & Hw & Heq). rewrite Hin, Hw. simpl.
      by rewrite Heq.
  - split; [done|]. by intros [?|[? _]].
Qed.

(** X1.  Two different plain objects compare equal under [shallowEqual]
    exactly when they have the same number of own keys and every key of the
    first is a key of the second with a [===] value. *)
Theorem shallowEqual_records (h : heap) (p n : addr) (m1 m2 : gmap string value) :
  h !! p = Some (ORecord m1) → h !! n = Some (ORecord m2) → p ≠ n →
  shallowEqual h (VObj p) (VObj n) = true
  ↔ size m1 = size m2
    ∧ ∀ k v, m1 !! k = Some v →
             ∃ w, m2 !! k = Some w ∧ strict_equals v w = true.
Proof.
  intros Hp Hn Hpn.
  rewrite (shallowEqual_records_deref h p n m1 m2)
    by by apply deref_lookup.
  split; [by intros [?|?]|by right].
Qed.

Lemma records_same_keys (m1 m2 : gmap string value) :
  size m1 = size m2 →
  (∀ k v, m1 !! k = Some v → ∃ w, m2 !! k = Some w ∧ strict_equals v w = true) →
  ∀ k w, m2 !! k = Some w → ∃ v, m1 !! k = Some v ∧ strict_equals w v = true.
Proof.
  intros Hsize Hall k w Hk.
  assert (dom m1 ≡ dom m2) as Hdom.
  { apply set_subseteq_size_equiv.
    - intros x [v Hv]%elem_of_dom. destruct (Hall x v Hv) as (w' & Hw' & _).
      apply elem_of_dom. eauto.
    - rewrite !size_dom. lia. }
  assert (k ∈ dom m1) as [v Hv]%elem_of_dom.
  { apply Hdom, elem_of_dom. eauto. }
  exists v. split; [done|]. destruct (Hall k v Hv) as (w' & Hw' & Heq).
  rewrite strict_equals_sym. congruence.
Qed.

(** *** Arrays with holes *)

Lemma shallowEqual_objects (h : heap) (p n : addr) :
  p ≠ n → shallowEqual h (VObj p) (VObj n) = objects_match (deref h p) (deref h n).
Proof.
  intros Hpn. unfold shallowEqual, objects_match. simpl.
  by rewrite bool_decide_eq_false_2.
Qed.

Lemma forallb_pointwise {A} (f g : A → bool) (l : list A) :
  (∀ x, f x = g x) → forallb f l = forallb g l.
Proof. intros Hfg. induction l as [|x l IH]; simpl; [done|]. by rewrite Hfg, IH. Qed.

Lemma array_index_Some (k : string) (n i : nat) :
  array_index k n = Some i → i < n ∧ pretty i = k.
Proof.
  unfold array_index. destruct (list_find _ _) as [[j y]|] eqn:E; simpl; [|done].
  intros [= ->]. apply list_find_Some in E as (Hj & Hy & _).
  apply lookup_seq in Hj as [-> Hj]. split; [lia|done].
Qed.

Lemma index_slot (slots : list (option value)) (i : nat) :
  array_index (pretty i) (length slots) ≫= slot slots = slot slots i.
Proof.
  destruct (decide (i < length slots)) as [Hi|Hi].
  - by rewrite array_index_pretty.
  - destruct (array_index _ _) as [j|] eqn:E; simpl.
    + apply array_index_Some in E as [Hj Heq]. apply (inj pretty) in Heq. lia.
    + unfold slot. rewrite lookup_ge_None_2 by lia. done.
Qed.

Lemma slot_dense (els : list value) (i : nat) : slot (Some <$> els) i = els !! i.
Proof. unfold slot. rewrite list_lookup_fmap. by destruct (els !! i). Qed.

Lemma slot_lt (slots : list (option value)) (i : nat) :
  is_Some (slot slots i) → i < length slots.
Proof.
  unfold slot. intros [v Hv]. destruct (slots !! i) as [o|] eqn:E; [|done].
  by eapply lookup_lt_Some.
Qed.

Lemma elem_of_present_indices (slots : list (option value)) (i : nat) :
  i ∈ present_indices slots ↔ is_Some (slot slots i).
Proof.
  unfold present_indices. rewrite list_elem_of_filter, elem_of_seq.
  split; [by intros [? _]|]. intros Hi. split; [done|].
  apply slot_lt in Hi. lia.
Qed.

Lemma filter_all {A} (P : A → Prop) `{∀ x, Decision (P x)} (l : list A) :
  Forall P l → filter P l = l.
Proof.
  induction 1 as [|x l Hx _ IH]; [done|]. by rewrite filter_cons_True, IH.
Qed.

Lemma present_indices_dense (els : list value) :
  present_indices (Some <$> els) = seq 0 (length els).
Proof.
  unfold present_indices. rewrite length_fmap.
  apply filter_all, Forall_forall. intros i Hi. apply elem_of_seq in Hi.
  rewrite slot_dense. apply lookup_lt_is_Some_2. lia.
Qed.

(** An array without holes and the same array given by its slots have
    the same keys and the same own properties. *)
Lemma dense_as_holey (els : list value) :
  own_keys (OArray els) = own_keys (OHoley (Some <$> els))
  ∧ ∀ k, has_own_property (OArray els) k = has_own_property (OHoley (Some <$> els)) k
         ∧ get_own (OArray els) k = get_own (OHoley (Some <$> els)) k.
Proof.
  split; [simpl; by rewrite present_indices_dense|].
  intros k. unfold has_own_property, get_own. rewrite length_fmap.
  destruct (array_index k (length els)) as [i|] eqn:E; simpl; [|done].
  apply array_index_Some in E as [Hi _]. rewrite slot_dense.
  destruct (lookup_lt_is_Some_2 els i Hi) as [x Hx]. rewrite Hx. simpl.
  done.
Qed.

Lemma objects_match_slots (P N : object) (sp sn : list (option value)) :
  array_slots P = Some sp → array_slots N = Some sn →
  objects_match P N = objects_match (OHoley sp) (OHoley sn).
Proof.
  assert (∀ o sl, array_slots o = Some sl →
            own_keys o = own_keys (OHoley sl)
            ∧ ∀ k, has_own_property o k = has_own_property (OHoley sl) k
                   ∧ get_own o k = get_own (OHoley sl) k) as Hview.
  { intros [els|slots|ps] sl [= <-]; [apply dense_as_holey|done]. }
  intros HP HN. destruct (Hview P sp HP) as [Hk1 Hp1], (Hview N sn HN) as [Hk2 Hp2].
  unfold objects_match. rewrite Hk1, Hk2.
  destruct (negb _); [done|]. apply forallb_pointwise. intros k.
  by rewrite (proj1 (Hp2 k)), (proj2 (Hp1 k)), (proj2 (Hp2 k)).
Qed.

Lemma holey_match_iff (s1 s2 : list (option value)) :
  objects_match (OHoley s1) (OHoley s2) = true
  ↔ length (present_indices s1) = length (present_indices s2)
    ∧ ∀ i v, slot s1 i = Some v →
             ∃ w, slot s2 i = Some w ∧ strict_equals v w = true.
Proof.
  unfold objects_match. cbn [own_keys]. rewrite !length_fmap.
  case_bool_decide as Hlen; cbn [negb]; [|by split; [|intros [? _]]].
  rewrite forallb_forall.
  assert (∀ i, negb (negb (has_own_property (OHoley s2) (pretty i))
                     || negb (strict_equals (get_own (OHoley s1) (pretty i))
                                            (get_own (OHoley s2) (pretty i))))
               = bool_decide (is_Some (slot s2 i))
                 && strict_equals (default VUndefined (slot s1 i))
                                  (default VUndefined (slot s2 i))) as Hkey.
  { intros i. unfold has_own_property, get_own.
    rewrite (bool_decide_eq_false_2 (pretty i = "length"))
      by (apply pretty_nat_not_name, name_length).
    rewrite !index_slot. cbn [orb]. by rewrite negb_orb, !negb_involutive. }
  split.
  - intros Hall. split; [done|]. intros i v Hv.
    assert (In (pretty i) (pretty <$> present_indices s1)) as Hin.
    { apply list_elem_of_In, list_elem_of_fmap. exists i. split; [done|].
      apply elem_of_present_indices. eauto. }
    apply Hall in Hin. rewrite Hkey, Hv in Hin.
    apply andb_true_iff in Hin as [[w Hw]%bool_decide_eq_true Heq].
    rewrite Hw in Heq. eauto.
  - intros [_ Hall] k Hin.
    apply list_elem_of_In, list_elem_of_fmap in Hin as (i & -> & Hi).
    apply elem_of_present_indices in Hi as [v Hv].
    destruct (Hall i v Hv) as (w & Hw & Heq).
    rewrite Hkey, Hv, Hw. simpl. by rewrite Heq.
Qed.

(** With as many elements on both sides, the indices of the first array
    being indices of the second makes them the same indices. *)
Lemma holey_same_indices (s1 s2 : list (option value)) :
  length (present_indices s1) = length (present_indices s2) →
  (∀ i, is_Some (slot s1 i) → is_Some (slot s2 i)) →
  ∀ i, is_Some (slot s2 i) → is_Some (slot s1 i).
Proof.
  intros Hlen Hsub i Hi.
  assert (∀ s, NoDup (present_indices s)) as Hnd.
  { intros s. apply NoDup_filter, NoDup_seq. }
  assert (list_to_set (present_indices s1) ≡@{gset nat}
          list_to_set (present_indices s2)) as Heq.
  { apply set_subseteq_size_equiv.
    - intros x Hx. apply elem_of_list_to_set, elem_of_present_indices in Hx.
      apply elem_of_list_to_set, elem_of_present_indices. by apply Hsub.
    - rewrite !size_list_to_set by done. lia. }
  apply elem_of_present_indices, (elem_of_list_to_set (C:=gset nat)), Heq,
    elem_of_list_to_set, elem_of_present_indices. done.
Qed.

Lemma shallowEqual_slots (h : heap) (p n : addr) (sp sn : list (option value)) :
  array_slots (deref h p) = Some sp → array_slots (deref h n) = Some sn →
  shallowEqual h (VObj p) (VObj n) = true
  ↔ p = n
    ∨ (length (present_indices sp) = length (present_indices sn)
       ∧ ∀ i v, slot sp i = Some v →
                ∃ w, slot sn i = Some w ∧ strict_equals v w = true).
Proof.
  intros Hp Hn. destruct (decide (p = n)) as [->|Hpn].
  - split; [by left|]. intros _. unfold shallowEqual. simpl.
    by rewrite bool_decide_eq_true_2.
  - rewrite shallowEqual_objects, (objects_match_slots _ _ sp sn), holey_match_iff
      by done.
    split; [by right|by intros [?|?]].
Qed.

Lemma slots_match_sym (s1 s2 : list (option value)) :
  length (present_indices s1) = length (present_indices s2) →
  (∀ i v, slot s1 i = Some v → ∃ w, slot s2 i = Some w ∧ strict_equals v w = true) →
  ∀ i w, slot s2 i = Some w → ∃ v, slot s1 i = Some v ∧ strict_equals w v = true.
Proof.
  intros Hlen Hall i w Hw.
  destruct (holey_same_indices s1 s2 Hlen) with (i := i) as [v Hv]; [|by eauto|].
  - intros j [v Hv]. destruct (Hall j v Hv) as (w' & Hw' & _). eauto.
  - exists v. split; [done|]. destruct (Hall i v Hv) as (w' & Hw' & Heq).
    rewrite strict_equals_sym. congruence.
Qed.

(** X2.  [shallowEqual] does not depend on the order of its arguments
    when both are arrays, both are plain objects, or one of them is no
    object; between a plain object and an array it does: [{ length: 1 }]
    matches [[1]] and [[1]] does not match [{ length: 1 }]. *)
Theorem shallowEqual_sym (h : heap) (prev next : value) :
  ((∀ p n, prev = VObj p → next = VObj n →
           is_array (deref h p) = is_array (deref h n)) →
   shallowEqual h prev next = shallowEqual h next prev)
  ∧ shallowEqual sample_objects (VObj 3) (VObj 4) = true
  ∧ shallowEqual sample_objects (VObj 4) (VObj 3) = false.
Proof.
  split; [|by vm_compute]. intros Hkind.
  destruct (decide (is_composite prev = true ∧ is_composite next = true))
    as [[Hc1 Hc2]|Hnc].
  - destruct prev as [| |b1|x1|t1|p|g1], next as [| |b2|x2|t2|q|g2]; try done.
    specialize (Hkind p q eq_refl eq_refl).
    apply eq_true_iff_eq.
    destruct (array_slots (deref h p)) as [sp|] eqn:Hp,
      (array_slots (deref h q)) as [sq|] eqn:Hq.
    + rewrite (shallowEqual_slots h p q sp sq), (shallowEqual_slots h q p sq sp)
        by done.
      split; (intros [->|[Hlen Hall]]; [by left|right]); (split; [done|]);
        by apply slots_match_sym.
    + by destruct (deref h p), (deref h q).
    + by destruct (deref h p), (deref h q).
    + destruct (deref h p) as [?|?|m1] eqn:Hp', (deref h q) as [?|?|m2] eqn:Hq';
        try done.
      rewrite (shallowEqual_records_deref h p q m1 m2),
        (shallowEqual_records_deref h q p m2 m1) by done.
      split; (intros [->|[Hsize Hall]]; [by left|right]); (split; [done|]);
        by apply records_same_keys.
  - rewrite !shallowEqual_scalars, strict_equals_sym; [done| |].
    + destruct (is_composite prev), (is_composite next); auto.
      exfalso. by apply Hnc.
    + destruct (is_composite prev), (is_composite next); auto.
      exfalso. by apply Hnc.
Qed.

(** X3.  An array that holds [NaN] matches no array but itself: [NaN] is
    not [===] to [NaN], so [shallow(f, [NaN])] never finds its arguments in
    the record of an earlier call made with another array. *)
Theorem shallowEqual_NaN (h : heap) (p n : addr) (xs ys : list value) (i : nat) :
  h !! p = Some (OArray xs) → h !! n = Some (OArray ys) → p ≠ n →
  xs !! i = Some (VNum NaN) ∨ ys !! i = Some (VNum NaN) →
  shallowEqual h (VObj p) (VObj n) = false.
Proof.
  intros Hp Hn Hpn Hnan. apply not_true_is_false. intros H.
  apply (shallowEqual_arrays h p n xs ys Hp Hn) in H as [?|[Hlen Hall]]; [done|].
  destruct Hnan as [Hx|Hy].
  - destruct (lookup_lt_is_Some_2 ys i) as [y Hy].
    { rewrite <- Hlen. by eapply lookup_lt_Some. }
    specialize (Hall i _ _ Hx Hy). by destruct y.
  - destruct (lookup_lt_is_Some_2 xs i) as [x Hx].
    { rewrite Hlen. by eapply lookup_lt_Some. }
    specialize (Hall i _ _ Hx Hy). by destruct x as [| |?|[| |?]|?|?|?].
Qed.

(** ** shallowEqual on all objects *)

(** C7, as the code has it.  On two arrays without holes, of equal length
    and with pairwise [===] elements, the comparison is true, and it is
    false when their lengths differ.  It is false when one side is not an
    object (or is [null]) and the two sides are not [===], and when a
    position of an array holds [null] on one side only.  Two different
    plain objects match exactly when they have as many own keys and every
    key of the first is a key of the second with a [===] value, and two
    different arrays, with or without holes, exactly when they have as
    many elements and every index that holds an element in the first
    holds a [===] element in the second.  So the second of two calls
    [shallow(f, [1, 2])] is a hit, and the second of two calls
    [shallow(f, [1, [1, 2]])] is a miss. *)
Theorem shallowEqual_spec :
  (∀ h p n xs ys,
     h !! p = Some (OArray xs) → h !! n = Some (OArray ys) →
     length xs = length ys →
     (∀ i x y, xs !! i = Some x → ys !! i = Some y → strict_equals x y = true) →
     shallowEqual h (VObj p) (VObj n) = true)
  ∧ (∀ h p n xs ys,
       h !! p = Some (OArray xs) → h !! n = Some (OArray ys) →
       length xs ≠ length ys →
       shallowEqual h (VObj p) (VObj n) = false)
  ∧ (∀ h prev next,
       is_composite prev = false ∨ is_composite next = false →
       strict_equals prev next = false →
       shallowEqual h prev next = false)
  ∧ (∀ h p n sp sn i,
       array_slots (deref h p) = Some sp → array_slots (deref h n) = Some sn →
       (slot sp i = Some VNull ∧ slot sn i ≠ Some VNull)
       ∨ (slot sn i = Some VNull ∧ slot sp i ≠ Some VNull) →
       shallowEqual h (VObj p) (VObj n) = false)
  ∧ (∀ h p n m1 m2,
       h !! p = Some (ORecord m1) → h !! n = Some (ORecord m2) → p ≠ n →
       shallowEqual h (VObj p) (VObj n) = true
       ↔ size m1 = size m2
         ∧ ∀ k v, m1 !! k = Some v →
                  ∃ w, m2 !! k = Some w ∧ strict_equals v w = true)
  ∧ (∀ h p n sp sn,
       array_slots (deref h p) = Some sp → array_slots (deref h n) = Some sn →
       p ≠ n →
       shallowEqual h (VObj p) (VObj n) = true
       ↔ length (present_indices sp) = length (present_indices sn)
         ∧ ∀ i v, slot sp i = Some v →
                  ∃ w, slot sn i = Some w ∧ strict_equals v w = true)
  ∧ invocations (UserFn 1) (calls shallow_flat_twice) = 1
  ∧ invocations (UserFn 1) (calls shallow_nested_twice) = 2.
Proof.
  split; [|split; [|split; [|split; [|split; [|split; [|split]]]]]].
  - intros h p n xs ys Hp Hn Hlen Hall.
    apply (shallowEqual_arrays h p n xs ys Hp Hn). by right.
  - intros h p n xs ys Hp Hn Hlen.
    apply not_true_is_false. intros H.
    apply (shallowEqual_arrays h p n xs ys Hp Hn) in H as [->|[? _]]; [|done].
    congruence.
  - intros h prev next Hc Hne. by rewrite shallowEqual_scalars.
  - intros h p n sp sn i Hp Hn Hnull.
    apply not_true_is_false. intros H.
    apply (shallowEqual_slots h p n sp sn Hp Hn) in H as [->|[Hlen Hall]].
    + assert (sp = sn) as -> by congruence.
      destruct Hnull as [[H1 H2]|[H1 H2]]; congruence.
    + destruct Hnull as [[H1 H2]|[H1 H2]].
      * destruct (Hall i _ H1) as (w & Hw & Heq). by destruct w.
      * destruct (slots_match_sym sp sn Hlen Hall i _ H1) as (v & Hv & Heq).
        by destruct v.
  - intros h p n m1 m2 Hp Hn Hpn.
    rewrite (shallowEqual_records_deref h p n m1 m2) by by apply deref_lookup.
    split; [by intros [?|?]|by right].
  - intros h p n sp sn Hp Hn Hpn.
    rewrite (shallowEqual_slots h p n sp sn) by done.
    split; [by intros [?|?]|by right].
  - by vm_compute.
  - by vm_compute.
Qed.

(** The clauses of C7 that fail as written.  Two plain objects
    [{ a: 1, b: null }], neither of them a sequence and at different
    addresses, compare true.  The arrays [[ , 1]] and [[undefined, 1]] have
    the same length and the same value at every index, and compare false.
    The arrays [[ , ]] and [[]] have different lengths, and compare true. *)
Lemma shallowEqual_beyond_sequences :
  (is_array (deref sample_objects 1) = false
   ∧ is_array (deref sample_objects 2) = false
   ∧ strict_equals (VObj 1) (VObj 2) = false
   ∧ shallowEqual sample_objects (VObj 1) (VObj 2) = true)
  ∧ (get_own (deref holey_arrays 1) "length" = get_own (deref holey_arrays 2) "length"
     ∧ strict_equals (get_own (deref holey_arrays 1) "0")
         (get_own (deref holey_arrays 2) "0") = true
     ∧ strict_equals (get_own (deref holey_arrays 1) "1")
         (get_own (deref holey_arrays 2) "1") = true
     ∧ shallowEqual holey_arrays (VObj 1) (VObj 2) = false)
  ∧ (get_own (deref holey_arrays 3) "length" = num 1
     ∧ get_own (deref holey_arrays 4) "length" = num 0
     ∧ shallowEqual holey_arrays (VObj 3) (VObj 4) = true).
Proof. by vm_compute. Qed.

(** ** Calls and the cache utilities *)

Section MoreReCallFacts.

Variable fn_length : fn → nat.
Variable fn_apply : fn → value → value → heap → completion value * heap.
Variable fn_compare : fn → heap → value → value → completion bool.

Local Abbreviation call_comparator := (call_comparator fn_compare).
Local Abbreviation invoke := (invoke fn_apply).
Local Abbreviation _reCall := (_reCall fn_apply fn_compare).
Local Abbreviation parseRestParams := (parseRestParams fn_length).
Local Abbreviation byRef := (byRef fn_length fn_apply fn_compare).
Local Abbreviation shallow := (shallow fn_length fn_apply fn_compare).
Local Abbreviation deep := (deep fn_length fn_apply fn_compare).
Local Abbreviation wrap := (wrap fn_apply fn_compare).
Local Abbreviation wrapShallow := (wrapShallow fn_apply fn_compare).
Local Abbreviation wrapDeep := (wrapDeep fn_apply fn_compare).
Local Abbreviation all_entries := (all_entries fn_length fn_apply fn_compare).

(** Every entry point ends in a call of the engine, in the state the call
    started in but for the literals allocated on the way. *)
Lemma entry_is_reCall f rest options args s out :
  In out (all_entries f rest options args s) →
  ∃ ps o h, out = _reCall f ps o (set_mem s h).
Proof.
  intros Hin. simpl in Hin.
  destruct Hin as [<-|[<-|[<-|[<-|[<-|[<-|[]]]]]]].
  - unfold byRef. destruct (parseRestParams f rest (mem s)) as [[ps o] h]. eauto.
  - unfold shallow. destruct (parseRestParams f rest (mem s)) as [[ps o] h].
    destruct (with_comparator _ _ _) as [o' h']. eauto.
  - unfold deep. destruct (parseRestParams f rest (mem s)) as [[ps o] h].
    destruct (with_comparator _ _ _) as [o' h']. eauto.
  - unfold wrap, alloc. destruct (nullish_default _ _ _) as [o' h']. eauto.
  - unfold wrapShallow, alloc. eauto.
  - unfold wrapDeep, alloc. eauto.
Qed.

Lemma reCall_no_record f ps o s :
  cache s !! f = None → _reCall f ps o s = invoke f (resolve_this (mem s) o) ps s.
Proof. intros H. unfold _reCall. by rewrite H. Qed.

Lemma invoke_frame f t ps s g :
  g ≠ f → cache (invoke f t ps s).2 !! g = cache s !! g.
Proof.
  intros Hg. unfold invoke.
  destruct (fn_apply f t ps (mem s)) as [[r|e] h']; simpl; [|done].
  by rewrite lookup_insert_ne.
Qed.

Lemma reCall_frame f ps o s :
  (∀ g, g ≠ f → cache (_reCall f ps o s).2 !! g = cache s !! g)
  ∧ (calls (_reCall f ps o s).2 = calls s
     ∨ calls (_reCall f ps o s).2 = calls s ++ [(f, resolve_this (mem s) o, ps)]).
Proof.
  destruct (reCall_cases fn_apply fn_compare f ps o s)
    as [[_ (cd & _ & ->)]|[_ [(e0 & cd & _ & _ & ->)| ->]]]; simpl.
  - split; [done|by left].
  - split; [done|by left].
  - split; [intros g Hg; by apply invoke_frame|right; apply invoke_calls].
Qed.

(** X4.  A call for [f], through any entry point, leaves the record of
    every other function as it was, applies no function but [f], and
    applies [f] at most once. *)
Theorem call_touches_only_its_function (f : fn) (rest : list value)
    (options : value) (args : list value) (s : state)
    (out : completion value * state) :
  In out (all_entries f rest options args s) →
  (∀ g, g ≠ f →
        cache out.2 !! g = cache s !! g
        ∧ peek g out.2 = peek g s
        ∧ invocations g (calls out.2) = invocations g (calls s))
  ∧ invocations f (calls out.2) ≤ S (invocations f (calls s)).
Proof.
  intros Hin. apply entry_is_reCall in Hin as (ps & o & h & ->).
  destruct (reCall_frame f ps o (set_mem s h)) as [Hcache Hcalls]. simpl in *.
  split.
  - intros g Hg. split; [by apply Hcache|]. split.
    + unfold peek. by rewrite Hcache.
    + destruct Hcalls as [-> | ->]; [done|].
      rewrite invocations_app. unfold invocations at 2.
      rewrite filter_cons_False by (simpl; congruence). simpl. lia.
  - destruct Hcalls as [-> | ->]; [lia|]. by rewrite invocations_snoc.
Qed.

Lemma reCall_after f ps o s :
  (∀ r, (_reCall f ps o s).1 = Normal r →
        hasCache f (_reCall f ps o s).2 = true ∧ peek f (_reCall f ps o s).2 = r)
  ∧ (∀ e, (_reCall f ps o s).1 = Throw e → cache (_reCall f ps o s).2 = cache s).
Proof.
  destruct (reCall_cases fn_apply fn_compare f ps o s)
    as [[_ (cd & Hcd & ->)]|[_ [(e0 & cd & _ & _ & ->)| ->]]]; simpl.
  - split; [|done]. intros r [= <-]. unfold hasCache, peek. rewrite Hcd.
    split; [|done]. apply bool_decide_eq_true_2. eauto.
  - split; [done|]. done.
  - unfold invoke. destruct (fn_apply f _ ps (mem s)) as [[r0|e0] h']; simpl.
    + split; [|done]. intros r [= <-]. unfold hasCache, peek. simpl.
      rewrite lookup_insert_eq. split; [|done]. apply bool_decide_eq_true_2. eauto.
    + split; [done|]. done.
Qed.

(** X5.  After a call for [f] that returns [r], through any entry point,
    [hasCache(f)] is true and [peek(f)] is [r], on a hit as on a miss; after
    a call that throws, [hasCache] and [peek] answer for every function
    what they answered before the call. *)
Theorem inspection_after_call (f : fn) (rest : list value) (options : value)
    (args : list value) (s : state) (out : completion value * state) :
  In out (all_entries f rest options args s) →
  (∀ r, out.1 = Normal r → hasCache f out.2 = true ∧ peek f out.2 = r)
  ∧ (∀ e, out.1 = Throw e →
          ∀ g, hasCache g out.2 = hasCache g s ∧ peek g out.2 = peek g s).
Proof.
  intros Hin. apply entry_is_reCall in Hin as (ps & o & h & ->).
  destruct (reCall_after f ps o (set_mem s h)) as [Hn Ht].
  split; [done|]. intros e He g. apply Ht in He. simpl in He.
  unfold hasCache, peek. by rewrite He.
Qed.

Lemma entry_no_record f rest options args s out :
  In out (all_entries f rest options args s) →
  cache s !! f = None →
  invocations f (calls out.2) = S (invocations f (calls s)).
Proof.
  intros Hin Hnone. apply entry_is_reCall in Hin as (ps & o & h & ->).
  rewrite reCall_no_record by done. by rewrite invoke_calls, invocations_snoc.
Qed.

(** X6.  [clearOne(f)] removes the record of [f] and no other: the
    answers of [hasCache] and [peek] for the other functions are unchanged,
    it changes nothing when [f] has no record, and the next call for [f],
    through any entry point and whatever the comparator, applies [f]. *)
Theorem clearOne_evicts_only_f (f : fn) (s : state) :
  hasCache f (clearOne f s) = false
  ∧ peek f (clearOne f s) = VUndefined
  ∧ (∀ g, g ≠ f →
          hasCache g (clearOne f s) = hasCache g s
          ∧ peek g (clearOne f s) = peek g s)
  ∧ (cache s !! f = None → clearOne f s = s)
  ∧ (∀ rest options args out,
       In out (all_entries f rest options args (clearOne f s)) →
       invocations f (calls out.2) = S (invocations f (calls s))).
Proof.
  split; [|split; [|split; [|split]]].
  - unfold hasCache, clearOne. simpl. rewrite lookup_delete_eq.
    apply bool_decide_eq_false_2. by intros [? ?].
  - unfold peek, clearOne. simpl. by rewrite lookup_delete_eq.
  - intros g Hg. unfold hasCache, peek, clearOne. simpl.
    by rewrite lookup_delete_ne.
  - intros Hnone. unfold clearOne. destruct s as [h c l]. simpl in *.
    f_equal. by apply delete_id.
  - intros rest options args out Hin.
    apply (entry_no_record f rest options args (clearOne f s) out Hin).
    simpl. by rewrite lookup_delete_eq.
Qed.

(** X7.  After [clearAll()] no function has a record, and the next call
    for any function, through any entry point, applies it. *)
Theorem clearAll_evicts_everything (s : state) (f : fn) :
  hasCache f (clearAll s) = false
  ∧ peek f (clearAll s) = VUndefined
  ∧ (∀ rest options args out,
       In out (all_entries f rest options args (clearAll s)) →
       invocations f (calls out.2) = S (invocations f (calls s))).
Proof.
  split; [|split].
  - unfold hasCache, clearAll. simpl. rewrite lookup_empty.
    apply bool_decide_eq_false_2. by intros [? ?].
  - unfold peek, clearAll. simpl. by rewrite lookup_empty.
  - intros rest options args out Hin.
    apply (entry_no_record f rest options args (clearAll s) out Hin).
    simpl. by rewrite lookup_empty.
Qed.

End MoreReCallFacts.

(** ** The strategies at work *)

Lemma resolve_this_ext (h1 h2 : heap) (o1 o2 : value) :
  spread_props h1 o1 !! "this" = spread_props h2 o2 !! "this" →
  spread_props h1 o1 !! "thisArg" = spread_props h2 o2 !! "thisArg" →
  resolve_this h1 o1 = resolve_this h2 o2.
Proof.
  intros Ht Ha. unfold resolve_this. by rewrite !field_merge_options, Ht, Ha.
Qed.

(** The options [{}] that [?? {}] supplies select the defaults. *)
Lemma fresh_options (h : heap) :
  resolve_comparator (h ++ [ORecord ∅]) (VObj (length h)) = VFun Object_is
  ∧ resolve_this (h ++ [ORecord ∅]) (VObj (length h)) = globalThis.
Proof.
  split.
  - apply resolve_comparator_default. simpl. by rewrite deref_alloc.
  - apply resolve_this_default; simpl; by rewrite deref_alloc.
Qed.

Section StrategyFacts.

Variable fn_length : fn → nat.
Variable fn_apply : fn → value → value → heap → completion value * heap.
Variable fn_compare : fn → heap → value → value → completion bool.

Local Abbreviation call_comparator := (call_comparator fn_compare).
Local Abbreviation invoke := (invoke fn_apply).
Local Abbreviation _reCall := (_reCall fn_apply fn_compare).
Local Abbreviation parseRestParams := (parseRestParams fn_length).
Local Abbreviation byRef := (byRef fn_length fn_apply fn_compare).
Local Abbreviation shallow := (shallow fn_length fn_apply fn_compare).
Local Abbreviation deep := (deep fn_length fn_apply fn_compare).
Local Abbreviation wrapShallow := (wrapShallow fn_apply fn_compare).
Local Abbreviation raised_in_call := (raised_in_call fn_apply fn_compare).

Lemma reCall_object_is_record f ps options s r s' :
  resolve_comparator (mem s) options = VFun Object_is →
  _reCall f ps options s = (Normal r, s') →
  cache s' !! f = Some (CacheRecord r ps (resolve_this (mem s) options)).
Proof.
  intros Hcmp Hcall.
  destruct (reCall_cases fn_apply fn_compare f ps options s)
    as [[Hc (cd & Hcd & Heq)]|[_ [(e & cd & _ & _ & Heq)|Heq]]];
    rewrite Heq in Hcall.
  - injection Hcall as <- <-.
    destruct Hc as (cd' & Hcd' & Hsame & Hctx).
    rewrite Hcd in Hcd'. injection Hcd' as <-.
    rewrite Hcmp in Hsame. simpl in Hsame. injection Hsame as Hsame.
    apply bool_decide_eq_true in Hsame.
    rewrite Hcd. destruct cd as [res p t]. simpl in *. by subst.
  - done.
  - apply invoke_normal in Hcall as [-> _]. by rewrite lookup_insert_eq.
Qed.

Lemma byRef_one_argument f a s :
  fn_length f ≠ 0 →
  byRef f [VObj a] s
  = _reCall f (VObj a) (VObj (length (mem s))) (set_mem s (mem s ++ [ORecord ∅])).
Proof.
  intros Hlen. unfold byRef, parseRestParams, nth_arg, nullish_default, alloc.
  simpl. by rewrite bool_decide_eq_false_2.
Qed.

(** X8.  Under the default comparator [Object.is] the record left by a
    call that returns is exactly the result, the arguments and the
    resolved context of that call, on a hit as on a miss: a hit under
    [Object.is] is a call with the stored arguments themselves.  So after
    [byRef(f, arr)] without options the record holds the result, [arr] and
    [globalThis]. *)
Theorem default_comparator_record (f : fn) (ps options : value) (s : state)
    (r : value) (s' : state) :
  (resolve_comparator (mem s) options = VFun Object_is →
   _reCall f ps options s = (Normal r, s') →
   record_is_of_call f ps options s r s')
  ∧ (∀ a, fn_length f ≠ 0 →
          byRef f [VObj a] s = (Normal r, s') →
          cache s' !! f = Some (CacheRecord r (VObj a) globalThis)).
Proof.
  split.
  - apply reCall_object_is_record.
  - intros a Hlen Hcall. rewrite byRef_one_argument in Hcall by done.
    destruct (fresh_options (mem s)) as [Hc Ht].
    apply reCall_object_is_record in Hcall; [|done]. simpl in Hcall.
    by rewrite Ht in Hcall.
Qed.

(** X9.  [byRef(f, arr)] after a [byRef(f, arr)] that returned [r], with
    the same array [arr] and no options, returns [r] without applying [f],
    whatever the heap holds by then: a change made to the elements of
    [arr] between the two calls does not invalidate the record. *)
Theorem byRef_same_reference_hits (f : fn) (a : addr) (s : state) (r : value)
    (s1 : state) (h2 : heap) :
  fn_length f ≠ 0 →
  byRef f [VObj a] s = (Normal r, s1) →
  byRef f [VObj a] (set_mem s1 h2) = (Normal r, set_mem s1 (h2 ++ [ORecord ∅])).
Proof.
  intros Hlen Hfirst. rewrite byRef_one_argument in Hfirst by done.
  destruct (fresh_options (mem s)) as [Hc Ht].
  apply reCall_object_is_record in Hfirst; [|done]. simpl in Hfirst.
  rewrite Ht in Hfirst.
  rewrite byRef_one_argument by done. simpl.
  destruct (fresh_options h2) as [Hc2 Ht2].
  unfold _reCall. simpl. rewrite Hfirst, Hc2, Ht2. simpl.
  unfold same_value. by rewrite bool_decide_eq_true_2.
Qed.

Lemma reCall_shallow_hit f a b xs ys options s r :
  cache s !! f = Some (CacheRecord r (VObj a) (resolve_this (mem s) options)) →
  resolve_comparator (mem s) options = VFun FnShallowEqual →
  mem s !! a = Some (OArray xs) → mem s !! b = Some (OArray ys) →
  length xs = length ys →
  (∀ i x y, xs !! i = Some x → ys !! i = Some y → strict_equals x y = true) →
  _reCall f (VObj b) options s = (Normal r, s).
Proof.
  intros Hcd Hcmp Ha Hb Hlen Hall. unfold _reCall. rewrite Hcd, Hcmp. simpl.
  rewrite (proj2 (shallowEqual_arrays (mem s) a b xs ys Ha Hb)) by by right.
  by rewrite (proj2 (strict_equals_truthy _ _ (resolve_this_truthy _ _)) eq_refl).
Qed.

(** X10.  For a function that declares no parameter, [shallow(f)] is
    answered from the cache once a record made without a context exists
    and its empty argument list is still empty: the new empty array matches
    the stored one element for element. *)
Theorem shallow_zero_arity_hits (f : fn) (a : addr) (s : state) (r : value) :
  fn_length f = 0 →
  cache s !! f = Some (CacheRecord r (VObj a) globalThis) →
  mem s !! a = Some (OArray []) →
  (shallow f [] s).1 = Normal r
  ∧ calls (shallow f [] s).2 = calls s
  ∧ cache (shallow f [] s).2 = cache s.
Proof.
  intros Hlen Hcd Ha.
  unfold shallow, parseRestParams, nth_arg, nullish_default, with_comparator, alloc.
  rewrite bool_decide_eq_true_2 by done. cbn beta iota zeta.
  change ([] !! 0) with (@None value). cbn beta iota zeta delta [default is_nullish].
  set (h1 := mem s ++ [OArray []]). set (h2 := h1 ++ [ORecord ∅]).
  set (h3 := h2 ++ _).
  assert (spread_props h2 (VObj (length h1)) = ∅) as Hsp.
  { simpl. subst h2. by rewrite deref_alloc. }
  assert (resolve_this h3 (VObj (length h2)) = globalThis) as Ht.
  { apply resolve_this_default; simpl; subst h3; rewrite deref_alloc, Hsp; done. }
  assert (resolve_comparator h3 (VObj (length h2)) = VFun FnShallowEqual) as Hc.
  { apply resolve_comparator_own. simpl. subst h3.
    by rewrite deref_alloc, lookup_insert_eq. }
  rewrite (reCall_shallow_hit f a (length (mem s)) [] [] _ (set_mem s h3) r);
    [done|simpl; by rewrite Ht|done| | |done|done].
  - simpl. subst h3 h2 h1. by do 3 apply lookup_app_l_Some.
  - simpl. subst h3 h2 h1. do 2 apply lookup_app_l_Some.
    by apply list_lookup_middle.
Qed.

(** X11.  The function made by [wrapShallow(f)] is answered from the cache
    when its arguments are as many as those of the stored call and [===]
    to them one by one, and the record was made without a context. *)
Theorem wrapShallow_hits (f : fn) (a : addr) (xs args : list value) (s : state)
    (r : value) :
  cache s !! f = Some (CacheRecord r (VObj a) globalThis) →
  mem s !! a = Some (OArray xs) →
  length xs = length args →
  (∀ i x y, xs !! i = Some x → args !! i = Some y → strict_equals x y = true) →
  (wrapShallow f args s).1 = Normal r
  ∧ calls (wrapShallow f args s).2 = calls s
  ∧ cache (wrapShallow f args s).2 = cache s.
Proof.
  intros Hcd Ha Hlen Hall. unfold wrapShallow, alloc.
  set (h1 := mem s ++ [OArray args]). set (h2 := h1 ++ _).
  assert (resolve_this h2 (VObj (length h1)) = globalThis) as Ht.
  { apply resolve_this_default; simpl; subst h2; by rewrite deref_alloc. }
  assert (resolve_comparator h2 (VObj (length h1)) = VFun FnShallowEqual) as Hc.
  { apply resolve_comparator_own. simpl. subst h2.
    by rewrite deref_alloc, lookup_insert_eq. }
  rewrite (reCall_shallow_hit f a (length (mem s)) xs args _ (set_mem s h2) r);
    [done|simpl; by rewrite Ht|done| | |done|done].
  - simpl. subst h2 h1. by do 2 apply lookup_app_l_Some.
  - simpl. subst h2 h1. apply lookup_app_l_Some. by apply list_lookup_middle.
Qed.

(** X12.  A comparator option that is not a function goes unnoticed as
    long as [f] has no record, since the comparator is consulted only when
    a record exists; once a record exists the call throws a [TypeError],
    [f] is not applied and the state is left as it was. *)
Theorem comparator_not_a_function (f : fn) (ps options : value) (s : state) :
  (∀ g, resolve_comparator (mem s) options ≠ VFun g) →
  (cache s !! f = None →
   _reCall f ps options s = invoke f (resolve_this (mem s) options) ps s)
  ∧ (is_Some (cache s !! f) →
     ∃ msg, _reCall f ps options s = (Throw (TypeError msg), s)).
Proof.
  intros Hc. split.
  - intros Hnone. unfold _reCall. by rewrite Hnone.
  - intros [cd Hcd]. unfold _reCall. rewrite Hcd.
    destruct (resolve_comparator (mem s) options) as [| |?|?|?|?|g] eqn:E;
      simpl; eauto.
    by destruct (Hc g).
Qed.

Lemma with_comparator_this (c : fn) (h : heap) (o : value) :
  value_ok h o →
  resolve_this
    (h ++ [ORecord (<["comparator" := VFun c]> (spread_props h o))])
    (VObj (length h))
  = resolve_this h o.
Proof.
  intros Hok. apply resolve_this_ext; simpl; rewrite deref_alloc;
    by rewrite lookup_insert_ne.
Qed.

(** X13.  Whenever [byRef], [shallow] or [deep], called with an argument
    list and an options object, applies [f], it applies it to that
    argument list under the context the caller's options resolve to: the
    copy of the options that [shallow] and [deep] make keeps the [this]
    and [thisArg] of the caller. *)
Theorem entry_applies_with_caller_context (f : fn) (ps : value) (o : addr)
    (m : gmap string value) (more : list value) (s : state)
    (out : completion value * state) :
  fn_length f ≠ 0 → is_nullish ps = false → mem s !! o = Some (ORecord m) →
  In out [byRef f (ps :: VObj o :: more) s;
          shallow f (ps :: VObj o :: more) s;
          deep f (ps :: VObj o :: more) s] →
  calls out.2 = calls s
  ∨ calls out.2 = calls s ++ [(f, resolve_this (mem s) (VObj o), ps)].
Proof.
  intros Hlen Hps Ho Hin.
  assert (parseRestParams f (ps :: VObj o :: more) (mem s) = (ps, VObj o, mem s))
    as Hparse by by apply parseRestParams_with_options.
  assert (value_ok (mem s) (VObj o)) as Hok by by eapply lookup_lt_Some.
  simpl in Hin. destruct Hin as [<-|[<-|[<-|[]]]].
  - unfold byRef. rewrite Hparse.
    apply (reCall_frame fn_apply fn_compare f ps (VObj o) (set_mem s (mem s))).
  - unfold shallow, with_comparator, alloc. rewrite Hparse.
    rewrite <- (with_comparator_this FnShallowEqual (mem s) (VObj o) Hok).
    apply (reCall_frame fn_apply fn_compare f ps _ (set_mem s _)).
  - unfold deep, with_comparator, alloc. rewrite Hparse.
    rewrite <- (with_comparator_this FnDeepEqual (mem s) (VObj o) Hok).
    apply (reCall_frame fn_apply fn_compare f ps _ (set_mem s _)).
Qed.

(** X14.  [byRef] called without an argument list never answers from the
    cache: for a function that declares no parameter, and for any function
    when the argument list is left out, the arguments are a new empty
    array, which [Object.is] tells apart from every stored one, so [f] is
    applied on every call. *)
Theorem byRef_without_arguments_never_hits (f : fn) (rest : list value) (s : state) :
  cache_wf s →
  (fn_length f = 0 ∧ omits_comparator (mem s) (nth_arg rest 0))
  ∨ (fn_length f ≠ 0 ∧ is_nullish (nth_arg rest 0) = true
     ∧ omits_comparator (mem s) (nth_arg rest 1)) →
  invocations f (calls (byRef f rest s).2) = S (invocations f (calls s)).
Proof.
  intros Hwf [[Hlen Hopt]|(Hlen & Hnull & [Hok Hnone])].
  - by apply byRef_zero_arity_miss.
  - unfold byRef, parseRestParams, nullish_default, alloc.
    rewrite bool_decide_eq_false_2, Hnull by done. cbv beta iota zeta.
    assert (∀ h cd, cache (set_mem s h) !! f = Some cd →
                    params cd ≠ VObj (length (mem s))) as Hfresh.
    { intros h cd Hcd Heq. apply Hwf in Hcd. rewrite Heq in Hcd. simpl in Hcd. lia. }
    destruct (is_nullish (nth_arg rest 1)) eqn:Hnull1; cbv beta iota zeta.
    + rewrite reCall_by_reference_fresh; [|by apply Hfresh|].
      * by rewrite invoke_calls, invocations_snoc.
      * apply resolve_comparator_default. simpl. by rewrite deref_alloc.
    + rewrite reCall_by_reference_fresh; [|by apply Hfresh|].
      * by rewrite invoke_calls, invocations_snoc.
      * apply resolve_comparator_default. simpl. by rewrite spread_props_app.
Qed.

(** X15.  The context is part of the key: after a call for [f] that
    returned under one context, a call whose options resolve to another
    context applies [f] again, whatever the comparator answers (provided it
    answers), and the record then holds the new context, so that a call
    under the first context is a miss in its turn. *)
Theorem context_switch_misses (f : fn) (ps1 o1 : value) (s : state) (r1 : value)
    (s1 : state) (ps2 o2 : value) :
  _reCall f ps1 o1 s = (Normal r1, s1) →
  resolve_this (mem s1) o2 ≠ resolve_this (mem s) o1 →
  (∀ prev e,
     call_comparator (mem s1) (resolve_comparator (mem s1) o2) prev ps2 ≠ Throw e) →
  _reCall f ps2 o2 s1 = invoke f (resolve_this (mem s1) o2) ps2 s1
  ∧ ∀ r2 s2,
      _reCall f ps2 o2 s1 = (Normal r2, s2) →
      thisArg <$> cache s2 !! f = Some (resolve_this (mem s1) o2).
Proof.
  intros Hfirst Hctx Hcmp.
  assert (thisArg <$> cache s1 !! f = Some (resolve_this (mem s) o1)) as Hrec.
  { destruct (reCall_cases fn_apply fn_compare f ps1 o1 s)
      as [[Hc (cd & Hcd & Heq)]|[_ [(e & cd & _ & _ & Heq)|Heq]]];
      rewrite Heq in Hfirst.
    - injection Hfirst as <- <-. destruct Hc as (cd' & Hcd' & _ & Ht).
      rewrite Hcd'. simpl. by rewrite Ht.
    - done.
    - apply invoke_normal in Hfirst as [-> _]. by rewrite lookup_insert_eq. }
  assert (_reCall f ps2 o2 s1 = invoke f (resolve_this (mem s1) o2) ps2 s1) as Heq.
  { destruct (reCall_cases fn_apply fn_compare f ps2 o2 s1)
      as [[Hc _]|[_ [(e & cd & _ & Hthrow & _)|Heq]]]; [| |done].
    - destruct Hc as (cd & Hcd & _ & Ht). rewrite Hcd in Hrec. simpl in Hrec.
      congruence.
    - by apply Hcmp in Hthrow. }
  split; [done|]. intros r2 s2 Hsecond. rewrite Heq in Hsecond.
  apply invoke_normal in Hsecond as [-> _]. by rewrite lookup_insert_eq.
Qed.

(** C6, as the code has it.  No entry point checks the shape of its
    arguments against the declared parameter count, and none raises an
    error of its own: an exception that leaves [byRef], [shallow] or [deep]
    is the one thrown in that very call by [fn.apply(thisValue, params)] or
    by the call of the comparator, and under [shallow], whose comparator
    does not throw, by [fn.apply(thisValue, params)].  For a callable that
    declares no parameter the three entry points take the first extra
    argument as the options and hand the callable a new empty argument
    list; an array found there sets no option, so that the context is
    [globalThis] and the comparator the default of the entry point. *)
Theorem facade_does_not_validate (f : fn) (rest : list value) (s : state) :
  (∀ ps o h e s',
     parseRestParams f rest (mem s) = (ps, o, h) →
     let hs := h ++ [ORecord (<["comparator" := VFun FnShallowEqual]>
                                (spread_props h o))] in
     let hd := h ++ [ORecord (<["comparator" := VFun FnDeepEqual]>
                                (spread_props h o))] in
     (byRef f rest s = (Throw e, s') → raised_in_call f ps o (set_mem s h) e)
     ∧ (shallow f rest s = (Throw e, s') →
        ∃ h', fn_apply f (resolve_this hs (VObj (length h))) ps hs = (Throw e, h'))
     ∧ (deep f rest s = (Throw e, s') →
        raised_in_call f ps (VObj (length h)) (set_mem s hd) e))
  ∧ (fn_length f = 0 →
     ∀ x more,
       rest = x :: more → is_nullish x = false →
       let h1 := mem s ++ [OArray []] in
       let hs := h1 ++ [ORecord (<["comparator" := VFun FnShallowEqual]>
                                   (spread_props h1 x))] in
       let hd := h1 ++ [ORecord (<["comparator" := VFun FnDeepEqual]>
                                   (spread_props h1 x))] in
       h1 !! length (mem s) = Some (OArray [])
       ∧ byRef f rest s = _reCall f (VObj (length (mem s))) x (set_mem s h1)
       ∧ shallow f rest s
         = _reCall f (VObj (length (mem s))) (VObj (length h1)) (set_mem s hs)
       ∧ deep f rest s
         = _reCall f (VObj (length (mem s))) (VObj (length h1)) (set_mem s hd))
  ∧ (fn_length f = 0 →
     ∀ a o more,
       rest = VObj a :: more → mem s !! a = Some o → is_array o = true →
       let h1 := mem s ++ [OArray []] in
       let hs := h1 ++ [ORecord (<["comparator" := VFun FnShallowEqual]>
                                   (spread_props h1 (VObj a)))] in
       let hd := h1 ++ [ORecord (<["comparator" := VFun FnDeepEqual]>
                                   (spread_props h1 (VObj a)))] in
       (resolve_comparator h1 (VObj a) = VFun Object_is
        ∧ resolve_this h1 (VObj a) = globalThis)
       ∧ (resolve_comparator hs (VObj (length h1)) = VFun FnShallowEqual
          ∧ resolve_this hs (VObj (length h1)) = globalThis)
       ∧ (resolve_comparator hd (VObj (length h1)) = VFun FnDeepEqual
          ∧ resolve_this hd (VObj (length h1)) = globalThis)).
Proof.
  split; [|split].
  - intros ps o h e s' Hparse hs hd. split; [|split].
    + unfold byRef. rewrite Hparse. apply reCall_throw_origin.
    + unfold shallow. rewrite Hparse.
      destruct (resolve_comparator_with FnShallowEqual o h) as [-> Hc].
      intros [[h' Happ]|(cd & _ & Hcmp)]%reCall_throw_origin; [by exists h'|].
      simpl in Hcmp. fold hs in Hcmp. subst hs. by rewrite Hc in Hcmp.
    + unfold deep. rewrite Hparse.
      destruct (resolve_comparator_with FnDeepEqual o h) as [-> _].
      apply reCall_throw_origin.
  - intros Hlen x more -> Hx h1 hs hd.
    assert (parseRestParams f (x :: more) (mem s) = (VObj (length (mem s)), x, h1))
      as Hparse by by apply parseRestParams_zero_arity.
    split; [by apply list_lookup_middle|].
    unfold byRef, shallow, deep. rewrite Hparse.
    destruct (resolve_comparator_with FnShallowEqual x h1) as [-> _].
    destruct (resolve_comparator_with FnDeepEqual x h1) as [-> _]. done.
  - intros Hlen a o more _ Ha Harr h1 hs hd.
    assert (value_ok h1 (VObj a)) as Hok.
    { apply value_ok_app. simpl. by eapply lookup_lt_Some. }
    assert (∀ k, starts_with_letter k → spread_props h1 (VObj a) !! k = None) as Hno.
    { intros k Hk. apply spread_props_no_name; [done|].
      intros a' ps [= <-]. subst h1. rewrite deref_app_l by by eapply lookup_lt_Some.
      rewrite (deref_lookup _ _ _ Ha). intros ->. done. }
    assert (resolve_this h1 (VObj a) = globalThis) as Ht.
    { apply resolve_this_default; apply Hno; [apply name_this|apply name_thisArg]. }
    split; [|split].
    + split; [|done]. apply resolve_comparator_default, Hno, name_comparator.
    + split; [apply resolve_comparator_with|].
      subst hs. by rewrite with_comparator_this.
    + split; [apply resolve_comparator_with|].
      subst hd. by rewrite with_comparator_this.
Qed.

End StrategyFacts.

(** ** The further properties at the sample client *)

Lemma shallowEqual_records_witness :
  shallowEqual sample_objects (VObj 1) (VObj 2) = true.
Proof.
  apply (shallowEqual_records sample_objects 1 2
           (<["a" := num 1]> (<["b" := VNull]> ∅))
           (<["a" := num 1]> (<["b" := VNull]> ∅))); try done.
  split; [done|]. intros k v Hk.
  destruct (decide (k = "a")) as [->|Ha].
  - vm_compute in Hk. injection Hk as <-. by exists (num 1).
  - rewrite lookup_insert_ne in Hk by done.
    destruct (decide (k = "b")) as [->|Hb].
    + vm_compute in Hk. injection Hk as <-. exists VNull. split; [|done].
      by vm_compute.
    + rewrite lookup_insert_ne in Hk by done. by rewrite lookup_empty in Hk.
Defined.

Lemma shallowEqual_sym_witness :
  shallowEqual sample_objects (VObj 1) (VObj 2)
  = shallowEqual sample_objects (VObj 2) (VObj 1).
Proof.
  apply (proj1 (shallowEqual_sym sample_objects (VObj 1) (VObj 2))).
  intros p n [= <-] [= <-]. by vm_compute.
Defined.

Lemma shallowEqual_NaN_witness :
  shallowEqual sample_objects (VObj 5) (VObj 6) = false.
Proof.
  apply (shallowEqual_NaN sample_objects 5 6 [VNum NaN] [VNum NaN] 0);
    try done. by left.
Defined.

Lemma call_touches_only_its_function_witness :
  peek (UserFn 1)
    (byRef demo_length demo_apply demo_compare (UserFn 0) [] after_first_call).2
  = peek (UserFn 1) after_first_call.
Proof.
  destruct (call_touches_only_its_function demo_length demo_apply demo_compare
              (UserFn 0) [] VUndefined [] after_first_call _ (or_introl eq_refl))
    as [H _].
  by apply (H (UserFn 1)).
Defined.

Lemma inspection_after_call_witness :
  hasCache (UserFn 1)
    (shallow demo_length demo_apply demo_compare (UserFn 1) [VObj 1] two_arrays).2
  = true
  ∧ peek (UserFn 1)
      (shallow demo_length demo_apply demo_compare (UserFn 1) [VObj 1] two_arrays).2
    = num 1.
Proof.
  apply (inspection_after_call demo_length demo_apply demo_compare
           (UserFn 1) [VObj 1] VUndefined [] two_arrays _
           (or_intror (or_introl eq_refl))).
  by vm_compute.
Defined.

Lemma clearOne_evicts_only_f_witness :
  invocations (UserFn 1)
    (calls (shallow demo_length demo_apply demo_compare (UserFn 1) [VObj 3]
              (clearOne (UserFn 1) after_first_call)).2)
  = S (invocations (UserFn 1) (calls after_first_call))
  ∧ clearOne (UserFn 5) after_first_call = after_first_call.
Proof.
  destruct (clearOne_evicts_only_f demo_length demo_apply demo_compare
              (UserFn 1) after_first_call) as (_ & _ & _ & _ & H).
  destruct (clearOne_evicts_only_f demo_length demo_apply demo_compare
              (UserFn 5) after_first_call) as (_ & _ & _ & H' & _).
  split.
  - apply (H [VObj 3] VUndefined [] _ (or_intror (or_introl eq_refl))).
  - apply H'. by vm_compute.
Defined.

Lemma clearAll_evicts_everything_witness :
  invocations (UserFn 1)
    (calls (shallow demo_length demo_apply demo_compare (UserFn 1) [VObj 3]
              (clearAll after_first_call)).2)
  = S (invocations (UserFn 1) (calls after_first_call)).
Proof.
  destruct (clearAll_evicts_everything demo_length demo_apply demo_compare
              after_first_call (UserFn 1)) as (_ & _ & H).
  apply (H [VObj 3] VUndefined [] _ (or_intror (or_introl eq_refl))).
Defined.

Lemma default_comparator_record_witness :
  record_is_of_call (UserFn 1) (VObj 1) VUndefined two_arrays (num 1)
    (_reCall demo_apply demo_compare (UserFn 1) (VObj 1) VUndefined two_arrays).2
  ∧ cache (byRef demo_length demo_apply demo_compare (UserFn 1) [VObj 1]
             two_arrays).2 !! UserFn 1
    = Some (CacheRecord (num 1) (VObj 1) globalThis).
Proof.
  split.
  - apply (proj1 (default_comparator_record demo_length demo_apply demo_compare
                    (UserFn 1) (VObj 1) VUndefined two_arrays (num 1) _));
      by vm_compute.
  - apply (proj2 (default_comparator_record demo_length demo_apply demo_compare
                    (UserFn 1) (VObj 1) VUndefined two_arrays (num 1) _) 1);
      [done|by vm_compute].
Defined.

Lemma byRef_same_reference_hits_witness :
  byRef demo_length demo_apply demo_compare (UserFn 1) [VObj 1]
    (set_mem (byRef demo_length demo_apply demo_compare (UserFn 1) [VObj 1]
                two_arrays).2 mutated_heap)
  = (Normal (num 1),
     set_mem (byRef demo_length demo_apply demo_compare (UserFn 1) [VObj 1]
                two_arrays).2 (mutated_heap ++ [ORecord ∅])).
Proof.
  apply (byRef_same_reference_hits demo_length demo_apply demo_compare
           (UserFn 1) 1 two_arrays (num 1)); [done|by vm_compute].
Defined.

Lemma shallow_zero_arity_hits_witness :
  (shallow demo_length demo_apply demo_compare (UserFn 0) [] after_shallow_noarg).1
  = Normal (VStr "data").
Proof.
  apply (shallow_zero_arity_hits demo_length demo_apply demo_compare
           (UserFn 0) 1 after_shallow_noarg (VStr "data")); by vm_compute.
Defined.

Lemma wrapShallow_hits_witness :
  (wrapShallow demo_apply demo_compare (UserFn 1) [num 1; num 2] after_first_call).1
  = Normal (num 1).
Proof.
  apply (wrapShallow_hits demo_apply demo_compare (UserFn 1) 1
           [num 1; num 2] [num 1; num 2] after_first_call (num 1));
    try (by vm_compute).
  intros [|[|i]] x y [= <-] [= <-]; done.
Defined.

Lemma comparator_not_a_function_witness :
  ∃ msg,
    _reCall demo_apply demo_compare (UserFn 1) (VObj 1) (VObj 4) undefined_comparator
    = (Throw (TypeError msg), undefined_comparator).
Proof.
  apply (comparator_not_a_function demo_apply demo_compare (UserFn 1) (VObj 1)
           (VObj 4) undefined_comparator).
  - intros g H. vm_compute in H. discriminate.
  - eexists. by vm_compute.
Defined.

Lemma entry_applies_with_caller_context_witness :
  calls (deep demo_length demo_apply demo_compare (UserFn 1) [VObj 3; VObj 2]
           after_first_call).2
  = calls after_first_call
  ∨ calls (deep demo_length demo_apply demo_compare (UserFn 1) [VObj 3; VObj 2]
             after_first_call).2
    = calls after_first_call
      ++ [(UserFn 1, resolve_this (mem after_first_call) (VObj 2), VObj 3)].
Proof.
  apply (entry_applies_with_caller_context demo_length demo_apply demo_compare
           (UserFn 1) (VObj 3) 2 (<["comparator" := VFun FnShallowEqual]> ∅) []
           after_first_call); try done.
  right. right. by left.
Defined.

Lemma byRef_without_arguments_never_hits_witness :
  invocations (UserFn 1)
    (calls (byRef demo_length demo_apply demo_compare (UserFn 1) [] initial).2)
  = S (invocations (UserFn 1) (calls initial)).
Proof.
  apply (byRef_without_arguments_never_hits demo_length demo_apply demo_compare
           (UserFn 1) [] initial initial_wf).
  right. by vm_compute.
Defined.

Lemma context_switch_misses_witness :
  _reCall demo_apply demo_compare (UserFn 1) (VObj 1) (VObj 4) after_plain_call
  = invoke demo_apply (UserFn 1)
      (resolve_this (mem after_plain_call) (VObj 4)) (VObj 1) after_plain_call.
Proof.
  apply (context_switch_misses demo_apply demo_compare (UserFn 1) (VObj 1)
           VUndefined with_context_options (num 1) after_plain_call
           (VObj 1) (VObj 4)).
  - by vm_compute.
  - by vm_compute.
  - intros prev e H. vm_compute in H. discriminate.
Defined.

Lemma shallowEqual_spec_witness :
  shallowEqual (mem two_arrays) (VObj 1) (VObj 3) = true
  ∧ shallowEqual [OArray [num 1]; OArray [num 1; num 2]] (VObj 0) (VObj 1) = false
  ∧ shallowEqual (mem two_arrays) (num 1) (VObj 1) = false
  ∧ shallowEqual [OArray [VNull]; OHoley [None]] (VObj 0) (VObj 1) = false
  ∧ shallowEqual sample_objects (VObj 3) (VObj 1) = false
  ∧ shallowEqual holey_arrays (VObj 3) (VObj 4) = true.
Proof.
  destruct shallowEqual_spec as (Ha & Hb & Hc & Hd & He & Hf & _).
  split; [|split; [|split; [|split; [|split]]]].
  - apply (Ha (mem two_arrays) 1 3 [num 1; num 2] [num 1; num 2]); try done.
    intros [|[|i]] x y [= <-] [= <-]; done.
  - by apply (Hb _ 0 1 [num 1] [num 1; num 2]).
  - apply Hc; [by left|done].
  - apply (Hd [OArray [VNull]; OHoley [None]] 0 1 [Some VNull] [None] 0
             eq_refl eq_refl). left.
    split; [reflexivity|]. vm_compute. discriminate.
  - apply not_true_is_false. intros H.
    apply (He sample_objects 3 1 (<["length" := num 1]> ∅)
             (<["a" := num 1]> (<["b" := VNull]> ∅)) eq_refl eq_refl) in H as [H _];
      [|lia].
    vm_compute in H. discriminate.
  - apply (Hf holey_arrays 3 4 [None] [] eq_refl eq_refl); [lia|].
    split; [reflexivity|]. intros [|i] v Hv; vm_compute in Hv; discriminate.
Defined.

Lemma facade_does_not_validate_witness :
  raised_in_call demo_apply demo_compare (UserFn 2) (VObj 1) (VObj 4)
    (set_mem two_arrays (mem two_arrays ++ [ORecord ∅]))
    (Thrown (VStr "boom"))
  ∧ byRef demo_length demo_apply demo_compare (UserFn 0) [VObj 1] two_arrays
    = _reCall demo_apply demo_compare (UserFn 0) (VObj 4) (VObj 1)
        (set_mem two_arrays (mem two_arrays ++ [OArray []]))
  ∧ resolve_comparator (mem two_arrays ++ [OArray []]) (VObj 1) = VFun Object_is.
Proof.
  split; [|split].
  - refine (proj1 (proj1 (facade_does_not_validate demo_length demo_apply
                            demo_compare (UserFn 2) [VObj 1] two_arrays)
                     (VObj 1) (VObj 4) (mem two_arrays ++ [ORecord ∅])
                     (Thrown (VStr "boom"))
                     (byRef demo_length demo_apply demo_compare (UserFn 2)
                        [VObj 1] two_arrays).2 _) _); by vm_compute.
  - refine (proj1 (proj2 (proj1 (proj2 (facade_does_not_validate demo_length
                                          demo_apply demo_compare (UserFn 0)
                                          [VObj 1] two_arrays))
                                   eq_refl (VObj 1) [] eq_refl eq_refl))).
  - refine (proj1 (proj1 (proj2 (proj2 (facade_does_not_validate demo_length
                                          demo_apply demo_compare (UserFn 0)
                                          [VObj 1] two_arrays))
                                   eq_refl 1 (OArray [num 1; num 2]) []
                                   eq_refl eq_refl eq_refl))).
Defined.
